(** * Expense tracker: the action handlers of [src/actions/index.ts]
      over the tables of [db/tables.ts]

    The development embeds the twelve Astro actions (create / update /
    archive / list for accounts and categories; create / update / delete /
    list for transactions) as functions of an explicit database state, and
    proves the properties of the specification about ownership, failure
    atomicity, partial updates, archiving and listing.

    Conventions of the embedding.
    - A JavaScript [number] is a canonical rational [Qc]: every finite
      double is one, comparison with zero and equality are exact.  Products
      such as [(page - 1) * pageSize] are the mathematical ones, that is the
      JavaScript ones as long as they stay in the safe-integer range.
    - A [Date] is its time value, an integer number of milliseconds.
    - A request payload is a JSON object, [gmap string Json]: a key is either
      absent or bound to a JSON value (JSON has no [undefined]).
    - A table is the list of its rows in storage order: an insert appends, an
      update rewrites rows in place, a delete removes rows. *)

From Stdlib Require Import ZArith QArith Qcanon Qround List Bool Lia.
From stdpp Require Import base option decidable numbers list strings gmap.

#[local] Set Warnings "-clear-no-such-hyp".

Local Open Scope Z_scope.
Local Open Scope string_scope.

(** ** Values *)

(** A JSON value, as it arrives in a request body. *)
#[local] Unset Elimination Schemes.
Inductive Json :=
  | JNull
  | JBool (b : bool)
  | JNum (q : Qc)
  | JStr (s : string)
  | JArr (l : list Json)
  | JObj (l : list (string * Json)).
#[local] Set Elimination Schemes.

(** A JavaScript value held in memory by a handler and placed in a
    response: the scalars the handlers build, [undefined], and [Date]. *)
Inductive Value :=
  | VUndefined
  | VNull
  | VBool (b : bool)
  | VNum (q : Qc)
  | VStr (s : string)
  | VDate (t : Z).

(** A plain JavaScript object with scalar fields.  Object spread
    [{...a, ...b}] is [b ∪ a]: the union of stdpp keeps the left binding. *)
Abbreviation Obj := (gmap string Value).

(** [x ?? y] on an optional input field and a prior value. *)
Definition nullish {A} (x : option A) (y : A) : A := default y x.

(** [x ?? y] when the prior value is itself nullable (a NULL column). *)
Definition nullish_opt {A} (x : option A) (y : option A) : option A :=
  match x with Some v => Some v | None => y end.

(** A nullable record field as a JavaScript value; [missing] is [VNull]
    for a row read back from storage (a NULL column) and [VUndefined] for an
    object literal built from an absent optional input. *)
Definition of_opt {A} (missing : Value) (f : A → Value) (x : option A) : Value :=
  match x with Some v => f v | None => missing end.

(** Adds the key [k] to an object only when the optional input is present:
    the output object of a zod schema has no key for an absent optional. *)
Definition opt_key {A} (k : string) (f : A → Value) (x : option A) (o : Obj) : Obj :=
  match x with Some v => <[k := f v]> o | None => o end.

(** ** The JavaScript runtime a request runs in *)

(** [clock n] is the value of the [n]-th [new Date()] evaluated by the
    handler, [randomUUID] the result of [crypto.randomUUID()], and
    [coerce_date v] the time value of [new Date(v)], [None] when that is an
    Invalid Date (used by [z.coerce.date()]). *)
Record Runtime := {
  clock : nat → Z;
  randomUUID : string;
  coerce_date : Json → option Z
}.

(** ** Request context ([ActionAPIContext]) *)

Record User := { user_id : string }.
Record Locals := { user : option User }.
Record Context := { locals : option Locals }.

(** ** Rows of the three tables ([db/tables.ts]) *)

Module Accounts.
Record row := {
  id : string;
  userId : string;
  name : string;
  type : option string;
  currency : option string;
  startingBalance : option Qc;
  isArchived : bool;
  createdAt : Z;
  updatedAt : Z
}.

Definition obj (missing : Value) (r : row) : Obj :=
  <["id" := VStr (id r)]> (
  <["userId" := VStr (userId r)]> (
  <["name" := VStr (name r)]> (
  <["type" := of_opt missing VStr (type r)]> (
  <["currency" := of_opt missing VStr (currency r)]> (
  <["startingBalance" := of_opt missing VNum (startingBalance r)]> (
  <["isArchived" := VBool (isArchived r)]> (
  <["createdAt" := VDate (createdAt r)]> (
  <["updatedAt" := VDate (updatedAt r)]> ∅)))))))).

(** The object a [select] returns for a row. *)
Definition to_obj : row → Obj := obj VNull.
End Accounts.

Module Categories.
Record row := {
  id : string;
  userId : string;
  name : string;
  type : option string;
  icon : option string;
  parentCategoryId : option string;
  sortOrder : option Qc;
  isArchived : bool;
  createdAt : Z;
  updatedAt : Z
}.

Definition obj (missing : Value) (r : row) : Obj :=
  <["id" := VStr (id r)]> (
  <["userId" := VStr (userId r)]> (
  <["name" := VStr (name r)]> (
  <["type" := of_opt missing VStr (type r)]> (
  <["icon" := of_opt missing VStr (icon r)]> (
  <["parentCategoryId" := of_opt missing VStr (parentCategoryId r)]> (
  <["sortOrder" := of_opt missing VNum (sortOrder r)]> (
  <["isArchived" := VBool (isArchived r)]> (
  <["createdAt" := VDate (createdAt r)]> (
  <["updatedAt" := VDate (updatedAt r)]> ∅))))))))).

(** The object a [select] returns for a row. *)
Definition to_obj : row → Obj := obj VNull.
End Categories.

Module Transactions.
Record row := {
  id : string;
  userId : string;
  accountId : option string;
  categoryId : option string;
  type : string;
  amount : Qc;
  currency : option string;
  transactionDate : Z;
  description : option string;
  transferAccountId : option string;
  createdAt : Z;
  updatedAt : Z
}.

Definition obj (missing : Value) (r : row) : Obj :=
  <["id" := VStr (id r)]> (
  <["userId" := VStr (userId r)]> (
  <["accountId" := of_opt missing VStr (accountId r)]> (
  <["categoryId" := of_opt missing VStr (categoryId r)]> (
  <["type" := VStr (type r)]> (
  <["amount" := VNum (amount r)]> (
  <["currency" := of_opt missing VStr (currency r)]> (
  <["transactionDate" := VDate (transactionDate r)]> (
  <["description" := of_opt missing VStr (description r)]> (
  <["transferAccountId" := of_opt missing VStr (transferAccountId r)]> (
  <["createdAt" := VDate (createdAt r)]> (
  <["updatedAt" := VDate (updatedAt r)]> ∅))))))))))).

(** The object a [select] returns for a row. *)
Definition to_obj : row → Obj := obj VNull.
End Transactions.

(** ** The database *)

(** The rows of the three tables, and whether the storage enforces the
    references that [db/tables.ts] declares ([Transactions.accountId] to
    [Accounts.id], [Transactions.categoryId] to [Categories.id]); that is a
    setting of the storage connection, which the repository does not fix. *)
Record Db := {
  accounts : list Accounts.row;
  categories : list Categories.row;
  transactions : list Transactions.row;
  foreign_keys : bool
}.

Definition empty_db (foreign_keys : bool) : Db :=
  {| accounts := []; categories := []; transactions := [];
     foreign_keys := foreign_keys |}.

(** ** Handlers: state and exceptions *)

Inductive ErrorCode := UNAUTHORIZED | NOT_FOUND.

(** What a request can throw: an [ActionError] of the handlers, the input
    error of [defineAction] (the specification's ValidationError), or an
    error of the storage client. *)
Inductive Exception :=
  | ActionError (code : ErrorCode) (message : string)
  | ActionInputError
  | SqlError.

Inductive Outcome (A : Type) :=
  | Returned (a : A)
  | Thrown (e : Exception).
Arguments Returned {A} a.
Arguments Thrown {A} e.

(** A computation reads and writes the database and returns or throws; the
    state that comes with [Thrown] is the one at the point of the throw, so
    a statement executed before a failure stays executed. *)
Definition Act (A : Type) : Type := Db → Outcome A * Db.

Definition ret {A} (a : A) : Act A := λ db, (Returned a, db).
Definition throw {A} (e : Exception) : Act A := λ db, (Thrown e, db).
Definition bind {A B} (m : Act A) (k : A → Act B) : Act B :=
  λ db, match m db with
        | (Returned a, db') => k a db'
        | (Thrown e, db') => (Thrown e, db')
        end.

#[export] Instance Act_ret : MRet Act := @ret.
#[export] Instance Act_bind : MBind Act := λ A B k m, bind m k.

(** ** The storage client *)

(** Modelled from the spec: the storage client ([db], [eq], [and] of
    [astro:db]) is an external collaborator that "supports scoped
    select/insert/update/delete with equality/conjunction filters,
    limit/offset".  A table handle gives access to the rows of one table and
    names its primary key and its references, declared in [db/tables.ts]; a
    reference is the check that the referencing cell of a row is NULL or the
    key of a row of the referenced table. *)
Record Table (R : Type) := {
  rows : Db → list R;
  set_rows : list R → Db → Db;
  pkey : R → string;
  references : list (R → Db → bool)
}.
Arguments rows {R} _ _.
Arguments set_rows {R} _ _ _.
Arguments pkey {R} _ _.
Arguments references {R} _.

(** A nullable referencing cell resolves among the keys of the referenced
    table. *)
Definition resolves (cell : option string) (keys : list string) : bool :=
  match cell with
  | Some k => bool_decide (k ∈ keys)
  | None => true
  end.

Definition AccountsTable : Table Accounts.row := {|
  rows := accounts;
  set_rows l db :=
    {| accounts := l; categories := categories db; transactions := transactions db;
       foreign_keys := foreign_keys db |};
  pkey := Accounts.id;
  references := []
|}.

Definition CategoriesTable : Table Categories.row := {|
  rows := categories;
  set_rows l db :=
    {| accounts := accounts db; categories := l; transactions := transactions db;
       foreign_keys := foreign_keys db |};
  pkey := Categories.id;
  references := []
|}.

Definition TransactionsTable : Table Transactions.row := {|
  rows := transactions;
  set_rows l db :=
    {| accounts := accounts db; categories := categories db; transactions := l;
       foreign_keys := foreign_keys db |};
  pkey := Transactions.id;
  references :=
    [ λ r db, resolves (Transactions.accountId r) (Accounts.id <$> accounts db);
      λ r db, resolves (Transactions.categoryId r) (Categories.id <$> categories db) ]
|}.

(** [eq(column, value)] on a NOT NULL column, on a nullable column (a NULL
    cell equals nothing), and [and(...conditions)]. *)
Definition sql_eq {R A} `{EqDecision A} (column : R → A) (v : A) : R → bool :=
  λ r, bool_decide (column r = v).

Definition sql_eq_null {R A} `{EqDecision A} (column : R → option A) (v : A) : R → bool :=
  λ r, bool_decide (column r = Some v).

Definition sql_and {R} (conditions : list (R → bool)) : R → bool :=
  λ r, forallb (λ c, c r) conditions.

Arguments sql_eq : simpl never.
Arguments sql_eq_null : simpl never.
Arguments sql_and : simpl never.

(** A JavaScript number used as a row count. *)
Definition to_count (q : Qc) : nat := Z.to_nat (Qfloor q).

(** Modelled from the spec: [db.select().from(T).where(c)] returns the rows
    that satisfy the condition, in storage order. *)
Definition db_select {R} (T : Table R) (where_ : R → bool) : Act (list R) :=
  λ db, (Returned (List.filter where_ (rows T db)), db).

(** Modelled from the spec: the same select with [.limit(n).offset(k)]. *)
Definition db_select_page {R} (T : Table R) (where_ : R → bool)
    (limit offset : Qc) : Act (list R) :=
  λ db, (Returned (take (to_count limit)
                     (drop (to_count offset) (List.filter where_ (rows T db)))), db).

(** One of the rows breaks a reference of its table that the storage
    enforces. *)
Definition dangling {R} (T : Table R) (l : list R) (db : Db) : bool :=
  existsb (λ reference, existsb (λ r, negb (reference r db)) l) (references T)
  && foreign_keys db.

(** Modelled from the spec: [db.insert(T).values(row)] appends the row; the
    primary key of [db/tables.ts] makes the insert of an existing [id] fail,
    an enforced reference makes the insert of a dangling row fail, and a
    failed statement changes nothing. *)
Definition db_insert {R} (T : Table R) (values : R) : Act unit :=
  λ db, if existsb (λ r, bool_decide (pkey T r = pkey T values)) (rows T db)
        then (Thrown SqlError, db)
        else if dangling T [values] db
        then (Thrown SqlError, db)
        else (Returned (), set_rows T (rows T db ++ [values])%list db).

(** Modelled from the spec: [db.update(T).set({...}).where(c)] rewrites, in
    place, every row that satisfies the condition; [set] overwrites the
    columns of the [.set({...})] object and keeps the others.  The statement
    fails, and changes nothing, when a rewritten row would break an enforced
    reference. *)
Definition db_update {R} (T : Table R) (set : R → R) (where_ : R → bool) : Act unit :=
  λ db, if dangling T (set <$> List.filter where_ (rows T db)) db
        then (Thrown SqlError, db)
        else (Returned (),
              set_rows T (map (λ r, if where_ r then set r else r) (rows T db)) db).

(** Modelled from the spec: [db.delete(T).where(c)] removes every row that
    satisfies the condition. *)
Definition db_delete {R} (T : Table R) (where_ : R → bool) : Act unit :=
  λ db, (Returned (), set_rows T (List.filter (λ r, negb (where_ r)) (rows T db)) db).

(** ** Input validation

    The schema combinators of [astro:schema] (zod) are an external library,
    modelled from the specification ("input fails shape/type/range checks")
    and from the way the schemas of the actions use them. *)
Module z.
(** Modelled from the spec: a validator receives the value under a key,
    [None] when the key is absent, and returns the parsed value, or [None]
    for a validation issue. *)
Definition Validator (A : Type) : Type := option Json → option A.

Definition string : Validator String.string :=
  λ v, match v with Some (JStr s) => Some s | _ => None end.

(** [.min(n)] on a string: at least [n] characters. *)
Definition min (n : nat) (p : Validator String.string) : Validator String.string :=
  λ v, s ← p v; if decide (n ≤ String.length s)%nat then Some s else None.

Definition number : Validator Qc :=
  λ v, match v with Some (JNum q) => Some q | _ => None end.

Definition positive (p : Validator Qc) : Validator Qc :=
  λ v, q ← p v; if decide (0 < q)%Qc then Some q else None.

(** [.int()]: the number is an integer. *)
Definition int (p : Validator Qc) : Validator Qc :=
  λ v, q ← p v; if decide (Qden (this q) = 1%positive) then Some q else None.

Definition boolean : Validator bool :=
  λ v, match v with Some (JBool b) => Some b | _ => None end.

Definition enum (values : list String.string) : Validator String.string :=
  λ v, match v with
       | Some (JStr s) => if decide (s ∈ values) then Some s else None
       | _ => None
       end.

(** [z.coerce.date()]: [new Date(value)], rejected when invalid. *)
Definition coerce_date (rt : Runtime) : Validator Z :=
  λ v, match v with Some j => coerce_date rt j | None => None end.

Definition optional {A} (p : Validator A) : Validator (option A) :=
  λ v, match v with None => Some None | Some _ => Some <$> p v end.

Definition default {A} (d : A) (p : Validator A) : Validator A :=
  λ v, match v with None => Some d | Some _ => p v end.
End z.

Definition transaction_types : list string := ["expense"; "income"; "transfer"].

(** ** Responses *)

(** The [data] of a response envelope: one entity under its key
    ([{ account }]), a list ([{ items, total }]) or a page
    ([{ items, total, page, pageSize }]). *)
Inductive Data :=
  | entity (key : string) (o : Obj)
  | listing (items : list Obj) (total : nat)
  | paged (items : list Obj) (total : nat) (page pageSize : Qc).

Record Response := { success : bool; data : option Data }.

(** ** [defineAction] *)

(** Modelled from the spec: [defineAction] of [astro:actions] validates the
    input against the schema "before any handler logic runs" and throws the
    input error instead of calling the handler. *)
Definition defineAction {I : Type}
    (input : Runtime → gmap string Json → option I)
    (handler : Runtime → I → Context → Act Response)
    (rt : Runtime) (payload : gmap string Json) (context : Context) : Act Response :=
  match input rt payload with
  | Some i => handler rt i context
  | None => throw ActionInputError
  end.

(** ** Helpers of [src/actions/index.ts] *)

Definition requireUser (context : Context) : Act User :=
  match locals context ≫= user with
  | Some u => ret u
  | None => throw (ActionError UNAUTHORIZED "You must be signed in to perform this action.")
  end.

Definition getAccountForUser (id userId : string) : Act (option Accounts.row) :=
  found ← db_select AccountsTable
      (sql_and [sql_eq Accounts.id id; sql_eq Accounts.userId userId]);
  ret (head found).

Definition getCategoryForUser (id userId : string) : Act (option Categories.row) :=
  found ← db_select CategoriesTable
      (sql_and [sql_eq Categories.id id; sql_eq Categories.userId userId]);
  ret (head found).

Definition getTransactionForUser (id userId : string) : Act (option Transactions.row) :=
  found ← db_select TransactionsTable
      (sql_and [sql_eq Transactions.id id; sql_eq Transactions.userId userId]);
  ret (head found).

(** ** Input schemas of the actions

    Each record is the parsed input of one action; an optional field is
    [None] exactly when its key is absent from the payload.  zod parses
    every listed key and drops the others. *)

Module CreateAccountInput.
Record t := {
  name : string;
  type : option string;
  currency : option string;
  startingBalance : option Qc
}.

Definition schema (rt : Runtime) (p : gmap string Json) : option t :=
  name ← z.min 1 z.string (p !! "name");
  type ← z.optional z.string (p !! "type");
  currency ← z.optional z.string (p !! "currency");
  startingBalance ← z.optional z.number (p !! "startingBalance");
  Some {| name := name; type := type; currency := currency;
          startingBalance := startingBalance |}.
End CreateAccountInput.

Module UpdateAccountInput.
Record t := {
  id : string;
  name : option string;
  type : option string;
  currency : option string;
  startingBalance : option Qc;
  isArchived : option bool
}.

Definition schema (rt : Runtime) (p : gmap string Json) : option t :=
  id ← z.string (p !! "id");
  name ← z.optional (z.min 1 z.string) (p !! "name");
  type ← z.optional z.string (p !! "type");
  currency ← z.optional z.string (p !! "currency");
  startingBalance ← z.optional z.number (p !! "startingBalance");
  isArchived ← z.optional z.boolean (p !! "isArchived");
  Some {| id := id; name := name; type := type; currency := currency;
          startingBalance := startingBalance; isArchived := isArchived |}.

(** The parsed input as the object that [...input] spreads. *)
Definition to_obj (i : t) : Obj :=
  opt_key "name" VStr (name i) (
  opt_key "type" VStr (type i) (
  opt_key "currency" VStr (currency i) (
  opt_key "startingBalance" VNum (startingBalance i) (
  opt_key "isArchived" VBool (isArchived i) (
  <["id" := VStr (id i)]> ∅))))).
End UpdateAccountInput.

Module IdInput.
Record t := { id : string }.

Definition schema (rt : Runtime) (p : gmap string Json) : option t :=
  id ← z.string (p !! "id");
  Some {| id := id |}.
End IdInput.

Module ListInput.
Record t := { includeArchived : bool }.

Definition schema (rt : Runtime) (p : gmap string Json) : option t :=
  includeArchived ← z.default false z.boolean (p !! "includeArchived");
  Some {| includeArchived := includeArchived |}.
End ListInput.

Module CreateCategoryInput.
Record t := {
  name : string;
  type : option string;
  icon : option string;
  parentCategoryId : option string;
  sortOrder : option Qc
}.

Definition schema (rt : Runtime) (p : gmap string Json) : option t :=
  name ← z.min 1 z.string (p !! "name");
  type ← z.optional (z.enum transaction_types) (p !! "type");
  icon ← z.optional z.string (p !! "icon");
  parentCategoryId ← z.optional z.string (p !! "parentCategoryId");
  sortOrder ← z.optional z.number (p !! "sortOrder");
  Some {| name := name; type := type; icon := icon;
          parentCategoryId := parentCategoryId; sortOrder := sortOrder |}.
End CreateCategoryInput.

Module UpdateCategoryInput.
Record t := {
  id : string;
  name : option string;
  type : option string;
  icon : option string;
  parentCategoryId : option string;
  sortOrder : option Qc;
  isArchived : option bool
}.

Definition schema (rt : Runtime) (p : gmap string Json) : option t :=
  id ← z.string (p !! "id");
  name ← z.optional (z.min 1 z.string) (p !! "name");
  type ← z.optional (z.enum transaction_types) (p !! "type");
  icon ← z.optional z.string (p !! "icon");
  parentCategoryId ← z.optional z.string (p !! "parentCategoryId");
  sortOrder ← z.optional z.number (p !! "sortOrder");
  isArchived ← z.optional z.boolean (p !! "isArchived");
  Some {| id := id; name := name; type := type; icon := icon;
          parentCategoryId := parentCategoryId; sortOrder := sortOrder;
          isArchived := isArchived |}.

Definition to_obj (i : t) : Obj :=
  opt_key "name" VStr (name i) (
  opt_key "type" VStr (type i) (
  opt_key "icon" VStr (icon i) (
  opt_key "parentCategoryId" VStr (parentCategoryId i) (
  opt_key "sortOrder" VNum (sortOrder i) (
  opt_key "isArchived" VBool (isArchived i) (
  <["id" := VStr (id i)]> ∅)))))).
End UpdateCategoryInput.

Module CreateTransactionInput.
Record t := {
  accountId : option string;
  categoryId : option string;
  type : string;
  amount : Qc;
  currency : option string;
  transactionDate : option Z;
  description : option string;
  transferAccountId : option string
}.

Definition schema (rt : Runtime) (p : gmap string Json) : option t :=
  accountId ← z.optional z.string (p !! "accountId");
  categoryId ← z.optional z.string (p !! "categoryId");
  type ← z.enum transaction_types (p !! "type");
  amount ← z.positive z.number (p !! "amount");
  currency ← z.optional z.string (p !! "currency");
  transactionDate ← z.optional (z.coerce_date rt) (p !! "transactionDate");
  description ← z.optional z.string (p !! "description");
  transferAccountId ← z.optional z.string (p !! "transferAccountId");
  Some {| accountId := accountId; categoryId := categoryId; type := type;
          amount := amount; currency := currency;
          transactionDate := transactionDate; description := description;
          transferAccountId := transferAccountId |}.
End CreateTransactionInput.

Module UpdateTransactionInput.
Record t := {
  id : string;
  accountId : option string;
  categoryId : option string;
  type : option string;
  amount : option Qc;
  currency : option string;
  transactionDate : option Z;
  description : option string;
  transferAccountId : option string
}.

Definition schema (rt : Runtime) (p : gmap string Json) : option t :=
  id ← z.string (p !! "id");
  accountId ← z.optional z.string (p !! "accountId");
  categoryId ← z.optional z.string (p !! "categoryId");
  type ← z.optional (z.enum transaction_types) (p !! "type");
  amount ← z.optional (z.positive z.number) (p !! "amount");
  currency ← z.optional z.string (p !! "currency");
  transactionDate ← z.optional (z.coerce_date rt) (p !! "transactionDate");
  description ← z.optional z.string (p !! "description");
  transferAccountId ← z.optional z.string (p !! "transferAccountId");
  Some {| id := id; accountId := accountId; categoryId := categoryId;
          type := type; amount := amount; currency := currency;
          transactionDate := transactionDate; description := description;
          transferAccountId := transferAccountId |}.

Definition to_obj (i : t) : Obj :=
  opt_key "accountId" VStr (accountId i) (
  opt_key "categoryId" VStr (categoryId i) (
  opt_key "type" VStr (type i) (
  opt_key "amount" VNum (amount i) (
  opt_key "currency" VStr (currency i) (
  opt_key "transactionDate" VDate (transactionDate i) (
  opt_key "description" VStr (description i) (
  opt_key "transferAccountId" VStr (transferAccountId i) (
  <["id" := VStr (id i)]> ∅)))))))).
End UpdateTransactionInput.

Module ListTransactionsInput.
Record t := {
  accountId : option string;
  categoryId : option string;
  type : option string;
  page : Qc;
  pageSize : Qc
}.

Definition schema (rt : Runtime) (p : gmap string Json) : option t :=
  accountId ← z.optional z.string (p !! "accountId");
  categoryId ← z.optional z.string (p !! "categoryId");
  type ← z.optional (z.enum transaction_types) (p !! "type");
  page ← z.default (Qc_of_Z 1) (z.positive (z.int z.number)) (p !! "page");
  pageSize ← z.default (Qc_of_Z 20) (z.positive (z.int z.number)) (p !! "pageSize");
  Some {| accountId := accountId; categoryId := categoryId; type := type;
          page := page; pageSize := pageSize |}.
End ListTransactionsInput.

(** JavaScript truthiness of a string: only the empty string is falsy. *)
Definition truthy (s : string) : bool := negb (String.eqb s "").

(** ** The actions ([export const server]) *)

Module server.

Definition createAccount :=
  defineAction CreateAccountInput.schema (λ rt input context,
    user ← requireUser context;
    let now := clock rt 0 in
    let account := {|
      Accounts.id := randomUUID rt;
      Accounts.userId := user_id user;
      Accounts.name := CreateAccountInput.name input;
      Accounts.type := CreateAccountInput.type input;
      Accounts.currency := CreateAccountInput.currency input;
      Accounts.startingBalance := CreateAccountInput.startingBalance input;
      Accounts.isArchived := false;
      Accounts.createdAt := now;
      Accounts.updatedAt := now
    |} in
    db_insert AccountsTable account;;
    mret {| success := true;
            data := Some (entity "account" (Accounts.obj VUndefined account)) |}).

Definition updateAccount :=
  defineAction UpdateAccountInput.schema (λ rt input context,
    user ← requireUser context;
    found ← getAccountForUser (UpdateAccountInput.id input) (user_id user);
    match found with
    | None => throw (ActionError NOT_FOUND "Account not found.")
    | Some account =>
      let now := clock rt 0 in
      db_update AccountsTable
        (λ r, {|
           Accounts.id := Accounts.id r;
           Accounts.userId := Accounts.userId r;
           Accounts.name := nullish (UpdateAccountInput.name input) (Accounts.name account);
           Accounts.type := nullish_opt (UpdateAccountInput.type input) (Accounts.type account);
           Accounts.currency :=
             nullish_opt (UpdateAccountInput.currency input) (Accounts.currency account);
           Accounts.startingBalance :=
             nullish_opt (UpdateAccountInput.startingBalance input)
                         (Accounts.startingBalance account);
           Accounts.isArchived :=
             nullish (UpdateAccountInput.isArchived input) (Accounts.isArchived account);
           Accounts.createdAt := Accounts.createdAt r;
           Accounts.updatedAt := now
         |})
        (sql_and [sql_eq Accounts.id (UpdateAccountInput.id input);
                  sql_eq Accounts.userId (user_id user)]);;
      let updatedAccount :=
        <["updatedAt" := VDate now]>
          (UpdateAccountInput.to_obj input ∪ Accounts.to_obj account) in
      mret {| success := true; data := Some (entity "account" updatedAccount) |}
    end).

Definition archiveAccount :=
  defineAction IdInput.schema (λ rt input context,
    user ← requireUser context;
    found ← getAccountForUser (IdInput.id input) (user_id user);
    match found with
    | None => throw (ActionError NOT_FOUND "Account not found.")
    | Some account =>
      let now := clock rt 0 in
      db_update AccountsTable
        (λ r, {|
           Accounts.id := Accounts.id r;
           Accounts.userId := Accounts.userId r;
           Accounts.name := Accounts.name r;
           Accounts.type := Accounts.type r;
           Accounts.currency := Accounts.currency r;
           Accounts.startingBalance := Accounts.startingBalance r;
           Accounts.isArchived := true;
           Accounts.createdAt := Accounts.createdAt r;
           Accounts.updatedAt := now
         |})
        (sql_and [sql_eq Accounts.id (IdInput.id input);
                  sql_eq Accounts.userId (user_id user)]);;
      mret {| success := true;
              data := Some (entity "account"
                (<["updatedAt" := VDate now]>
                   (<["isArchived" := VBool true]> (Accounts.to_obj account)))) |}
    end).

Definition listAccounts :=
  defineAction ListInput.schema (λ rt input context,
    user ← requireUser context;
    accounts ← db_select AccountsTable
      (if ListInput.includeArchived input
       then sql_eq Accounts.userId (user_id user)
       else sql_and [sql_eq Accounts.userId (user_id user);
                     sql_eq Accounts.isArchived false]);
    mret {| success := true;
            data := Some (listing (Accounts.to_obj <$> accounts) (length accounts)) |}).

Definition createCategory :=
  defineAction CreateCategoryInput.schema (λ rt input context,
    user ← requireUser context;
    let now := clock rt 0 in
    let category := {|
      Categories.id := randomUUID rt;
      Categories.userId := user_id user;
      Categories.name := CreateCategoryInput.name input;
      Categories.type := CreateCategoryInput.type input;
      Categories.icon := CreateCategoryInput.icon input;
      Categories.parentCategoryId := CreateCategoryInput.parentCategoryId input;
      Categories.sortOrder := CreateCategoryInput.sortOrder input;
      Categories.isArchived := false;
      Categories.createdAt := now;
      Categories.updatedAt := now
    |} in
    db_insert CategoriesTable category;;
    mret {| success := true;
            data := Some (entity "category" (Categories.obj VUndefined category)) |}).

Definition updateCategory :=
  defineAction UpdateCategoryInput.schema (λ rt input context,
    user ← requireUser context;
    found ← getCategoryForUser (UpdateCategoryInput.id input) (user_id user);
    match found with
    | None => throw (ActionError NOT_FOUND "Category not found.")
    | Some category =>
      let now := clock rt 0 in
      db_update CategoriesTable
        (λ r, {|
           Categories.id := Categories.id r;
           Categories.userId := Categories.userId r;
           Categories.name :=
             nullish (UpdateCategoryInput.name input) (Categories.name category);
           Categories.type :=
             nullish_opt (UpdateCategoryInput.type input) (Categories.type category);
           Categories.icon :=
             nullish_opt (UpdateCategoryInput.icon input) (Categories.icon category);
           Categories.parentCategoryId :=
             nullish_opt (UpdateCategoryInput.parentCategoryId input)
                         (Categories.parentCategoryId category);
           Categories.sortOrder :=
             nullish_opt (UpdateCategoryInput.sortOrder input)
                         (Categories.sortOrder category);
           Categories.isArchived :=
             nullish (UpdateCategoryInput.isArchived input) (Categories.isArchived category);
           Categories.createdAt := Categories.createdAt r;
           Categories.updatedAt := now
         |})
        (sql_and [sql_eq Categories.id (UpdateCategoryInput.id input);
                  sql_eq Categories.userId (user_id user)]);;
      let updatedCategory :=
        <["updatedAt" := VDate now]>
          (UpdateCategoryInput.to_obj input ∪ Categories.to_obj category) in
      mret {| success := true; data := Some (entity "category" updatedCategory) |}
    end).

Definition archiveCategory :=
  defineAction IdInput.schema (λ rt input context,
    user ← requireUser context;
    found ← getCategoryForUser (IdInput.id input) (user_id user);
    match found with
    | None => throw (ActionError NOT_FOUND "Category not found.")
    | Some category =>
      let now := clock rt 0 in
      db_update CategoriesTable
        (λ r, {|
           Categories.id := Categories.id r;
           Categories.userId := Categories.userId r;
           Categories.name := Categories.name r;
           Categories.type := Categories.type r;
           Categories.icon := Categories.icon r;
           Categories.parentCategoryId := Categories.parentCategoryId r;
           Categories.sortOrder := Categories.sortOrder r;
           Categories.isArchived := true;
           Categories.createdAt := Categories.createdAt r;
           Categories.updatedAt := now
         |})
        (sql_and [sql_eq Categories.id (IdInput.id input);
                  sql_eq Categories.userId (user_id user)]);;
      mret {| success := true;
              data := Some (entity "category"
                (<["updatedAt" := VDate now]>
                   (<["isArchived" := VBool true]> (Categories.to_obj category)))) |}
    end).

Definition listCategories :=
  defineAction ListInput.schema (λ rt input context,
    user ← requireUser context;
    categories ← db_select CategoriesTable
      (if ListInput.includeArchived input
       then sql_eq Categories.userId (user_id user)
       else sql_and [sql_eq Categories.userId (user_id user);
                     sql_eq Categories.isArchived false]);
    mret {| success := true;
            data := Some (listing (Categories.to_obj <$> categories)
                                  (length categories)) |}).

Definition createTransaction :=
  defineAction CreateTransactionInput.schema (λ rt input context,
    user ← requireUser context;
    let now := clock rt 0 in
    let transaction := {|
      Transactions.id := randomUUID rt;
      Transactions.userId := user_id user;
      Transactions.accountId := CreateTransactionInput.accountId input;
      Transactions.categoryId := CreateTransactionInput.categoryId input;
      Transactions.type := CreateTransactionInput.type input;
      Transactions.amount := CreateTransactionInput.amount input;
      Transactions.currency := CreateTransactionInput.currency input;
      Transactions.transactionDate :=
        nullish (CreateTransactionInput.transactionDate input) (clock rt 1);
      Transactions.description := CreateTransactionInput.description input;
      Transactions.transferAccountId := CreateTransactionInput.transferAccountId input;
      Transactions.createdAt := now;
      Transactions.updatedAt := now
    |} in
    db_insert TransactionsTable transaction;;
    mret {| success := true;
            data := Some (entity "transaction"
                            (Transactions.obj VUndefined transaction)) |}).

Definition updateTransaction :=
  defineAction UpdateTransactionInput.schema (λ rt input context,
    user ← requireUser context;
    found ← getTransactionForUser (UpdateTransactionInput.id input) (user_id user);
    match found with
    | None => throw (ActionError NOT_FOUND "Transaction not found.")
    | Some transaction =>
      let now := clock rt 0 in
      db_update TransactionsTable
        (λ r, {|
           Transactions.id := Transactions.id r;
           Transactions.userId := Transactions.userId r;
           Transactions.accountId :=
             nullish_opt (UpdateTransactionInput.accountId input)
                         (Transactions.accountId transaction);
           Transactions.categoryId :=
             nullish_opt (UpdateTransactionInput.categoryId input)
                         (Transactions.categoryId transaction);
           Transactions.type :=
             nullish (UpdateTransactionInput.type input) (Transactions.type transaction);
           Transactions.amount :=
             nullish (UpdateTransactionInput.amount input) (Transactions.amount transaction);
           Transactions.currency :=
             nullish_opt (UpdateTransactionInput.currency input)
                         (Transactions.currency transaction);
           Transactions.transactionDate :=
             nullish (UpdateTransactionInput.transactionDate input)
                     (Transactions.transactionDate transaction);
           Transactions.description :=
             nullish_opt (UpdateTransactionInput.description input)
                         (Transactions.description transaction);
           Transactions.transferAccountId :=
             nullish_opt (UpdateTransactionInput.transferAccountId input)
                         (Transactions.transferAccountId transaction);
           Transactions.createdAt := Transactions.createdAt r;
           Transactions.updatedAt := now
         |})
        (sql_and [sql_eq Transactions.id (UpdateTransactionInput.id input);
                  sql_eq Transactions.userId (user_id user)]);;
      let updatedTransaction :=
        <["updatedAt" := VDate now]>
          (UpdateTransactionInput.to_obj input ∪ Transactions.to_obj transaction) in
      mret {| success := true; data := Some (entity "transaction" updatedTransaction) |}
    end).

Definition deleteTransaction :=
  defineAction IdInput.schema (λ rt input context,
    user ← requireUser context;
    found ← getTransactionForUser (IdInput.id input) (user_id user);
    match found with
    | None => throw (ActionError NOT_FOUND "Transaction not found.")
    | Some transaction =>
      db_delete TransactionsTable
        (sql_and [sql_eq Transactions.id (IdInput.id input);
                  sql_eq Transactions.userId (user_id user)]);;
      mret {| success := true; data := None |}
    end).

(** The conjunctive filter of [listTransactions]: [filters] starts with
    the owner condition and each truthy filter of the input is pushed. *)
Definition whereClause (userId : string) (input : ListTransactionsInput.t)
    : Transactions.row → bool :=
  let filters := [sql_eq Transactions.userId userId] in
  let filters :=
    match ListTransactionsInput.accountId input with
    | Some accountId =>
        if truthy accountId
        then (filters ++ [sql_eq_null Transactions.accountId accountId])%list
        else filters
    | None => filters
    end in
  let filters :=
    match ListTransactionsInput.categoryId input with
    | Some categoryId =>
        if truthy categoryId
        then (filters ++ [sql_eq_null Transactions.categoryId categoryId])%list
        else filters
    | None => filters
    end in
  let filters :=
    match ListTransactionsInput.type input with
    | Some type =>
        if truthy type
        then (filters ++ [sql_eq Transactions.type type])%list
        else filters
    | None => filters
    end in
  match filters with
  | [only] => only
  | _ => sql_and filters
  end.

Definition listTransactions :=
  defineAction ListTransactionsInput.schema (λ rt input context,
    user ← requireUser context;
    let offset :=
      ((ListTransactionsInput.page input - Qc_of_Z 1)
       * ListTransactionsInput.pageSize input)%Qc in
    transactions ← db_select_page TransactionsTable
      (whereClause (user_id user) input)
      (ListTransactionsInput.pageSize input) offset;
    mret {| success := true;
            data := Some (paged (Transactions.to_obj <$> transactions)
                                (length transactions)
                                (ListTransactionsInput.page input)
                                (ListTransactionsInput.pageSize input)) |}).

End server.

(** ** The exposed action surface *)

Inductive ActionName :=
  | CreateAccount | UpdateAccount | ArchiveAccount | ListAccounts
  | CreateCategory | UpdateCategory | ArchiveCategory | ListCategories
  | CreateTransaction | UpdateTransaction | DeleteTransaction | ListTransactions.

(** One request: the action called, the runtime it runs in, its payload and
    its context. *)
Record Request := {
  action : ActionName;
  runtime : Runtime;
  payload : gmap string Json;
  context : Context
}.

Definition call (a : ActionName) : Runtime → gmap string Json → Context → Act Response :=
  match a with
  | CreateAccount => server.createAccount
  | UpdateAccount => server.updateAccount
  | ArchiveAccount => server.archiveAccount
  | ListAccounts => server.listAccounts
  | CreateCategory => server.createCategory
  | UpdateCategory => server.updateCategory
  | ArchiveCategory => server.archiveCategory
  | ListCategories => server.listCategories
  | CreateTransaction => server.createTransaction
  | UpdateTransaction => server.updateTransaction
  | DeleteTransaction => server.deleteTransaction
  | ListTransactions => server.listTransactions
  end.

Definition serve (q : Request) : Act Response :=
  call (action q) (runtime q) (payload q) (context q).

(** The database after a sequence of requests, served one after the other. *)
Definition serve_all (qs : list Request) (db : Db) : Db :=
  foldl (λ d q, (serve q d).2) db qs.

(** A caller identified as [u]. *)
Definition signed_in (u : string) : Context :=
  {| locals := Some {| user := Some {| user_id := u |} |} |}.

(** ** Vocabulary of the properties *)

Inductive Entity := Account | Category | Transaction.

(** The entity an action addresses by [id], for the actions that take one. *)
Definition targets (a : ActionName) : option Entity :=
  match a with
  | UpdateAccount | ArchiveAccount => Some Account
  | UpdateCategory | ArchiveCategory => Some Category
  | UpdateTransaction | DeleteTransaction => Some Transaction
  | _ => None
  end.

(** The update action of an entity. *)
Definition update_of (e : Entity) : ActionName :=
  match e with
  | Account => UpdateAccount
  | Category => UpdateCategory
  | Transaction => UpdateTransaction
  end.

(** The error a handler throws when its lookup finds no row. *)
Definition not_found (e : Entity) : Exception :=
  match e with
  | Account => ActionError NOT_FOUND "Account not found."
  | Category => ActionError NOT_FOUND "Category not found."
  | Transaction => ActionError NOT_FOUND "Transaction not found."
  end.

(** The table of [e] holds a row with this [id] whose owner is [owner]. *)
Definition owned (e : Entity) (id owner : string) (db : Db) : Prop :=
  match e with
  | Account =>
      ∃ r, r ∈ accounts db ∧ Accounts.id r = id ∧ Accounts.userId r = owner
  | Category =>
      ∃ r, r ∈ categories db ∧ Categories.id r = id ∧ Categories.userId r = owner
  | Transaction =>
      ∃ r, r ∈ transactions db ∧ Transactions.id r = id ∧ Transactions.userId r = owner
  end.

(** The row a lookup returns, [None] when it returns the no-match sentinel. *)
Definition found {A} (x : Outcome (option A) * Db) : option A :=
  match x.1 with
  | Returned o => o
  | Thrown _ => None
  end.

(** The single-row lookup of [e] ([getAccountForUser] and its siblings), its
    result read as the object a handler sees. *)
Definition stored (e : Entity) (id userId : string) (db : Db) : option Obj :=
  match e with
  | Account => Accounts.to_obj <$> found (getAccountForUser id userId db)
  | Category => Categories.to_obj <$> found (getCategoryForUser id userId db)
  | Transaction => Transactions.to_obj <$> found (getTransactionForUser id userId db)
  end.

(** The schema of the action accepts the payload. *)
Definition accepts (a : ActionName) (rt : Runtime) (p : gmap string Json) : Prop :=
  match a with
  | CreateAccount => is_Some (CreateAccountInput.schema rt p)
  | UpdateAccount => is_Some (UpdateAccountInput.schema rt p)
  | CreateCategory => is_Some (CreateCategoryInput.schema rt p)
  | UpdateCategory => is_Some (UpdateCategoryInput.schema rt p)
  | CreateTransaction => is_Some (CreateTransactionInput.schema rt p)
  | UpdateTransaction => is_Some (UpdateTransactionInput.schema rt p)
  | ArchiveAccount | ArchiveCategory | DeleteTransaction => is_Some (IdInput.schema rt p)
  | ListAccounts | ListCategories => is_Some (ListInput.schema rt p)
  | ListTransactions => is_Some (ListTransactionsInput.schema rt p)
  end.

(** The caller identity a context carries, if any. *)
Definition caller (context : Context) : option string :=
  user_id <$> (locals context ≫= user).

(** The primary-key constraint of the three tables. *)
Definition pk_unique (db : Db) : Prop :=
  NoDup (Accounts.id <$> accounts db)
  ∧ NoDup (Categories.id <$> categories db)
  ∧ NoDup (Transactions.id <$> transactions db).

(** The JavaScript value of a JSON scalar. *)
Definition json_value (v : Json) : Value :=
  match v with
  | JBool b => VBool b
  | JNum q => VNum q
  | JStr s => VStr s
  | _ => VNull
  end.

(** The value the payload supplies for column [k]: the [Date] it denotes
    for [transactionDate], the scalar itself for the other columns. *)
Definition supplied_value (rt : Runtime) (k : string) (v : Json) : Value :=
  if decide (k = "transactionDate")
  then match coerce_date rt v with Some t => VDate t | None => VUndefined end
  else json_value v.

(** The columns an update can change. *)
Definition mutable (e : Entity) : list string :=
  match e with
  | Account => ["name"; "type"; "currency"; "startingBalance"; "isArchived"]
  | Category => ["name"; "type"; "icon"; "parentCategoryId"; "sortOrder"; "isArchived"]
  | Transaction =>
      ["accountId"; "categoryId"; "type"; "amount"; "currency"; "transactionDate";
       "description"; "transferAccountId"]
  end.

(** Column [k] of the row after an update, as the specification words it:
    [updatedAt] is refreshed, a mutable column present in the payload takes
    the supplied value, every other column keeps the prior value [o !! k]. *)
Definition updated_field (e : Entity) (rt : Runtime) (p : gmap string Json)
    (o : Obj) (k : string) : option Value :=
  if decide (k = "updatedAt") then Some (VDate (clock rt 0))
  else if decide (k ∈ mutable e)
       then match p !! k with
            | Some v => Some (supplied_value rt k v)
            | None => o !! k
            end
       else o !! k.

(** The key under which a response carries the entity. *)
Definition entity_key (e : Entity) : string :=
  match e with
  | Account => "account"
  | Category => "category"
  | Transaction => "transaction"
  end.

(** A validator [val] reads a supplied JSON value [j] as [f j]. *)
Definition reads {A} (val : z.Validator A) (inj : A → Value) (f : Json → Value) : Prop :=
  ∀ j a, val (Some j) = Some a → inj a = f j.

(** The two archive actions. *)
Definition is_archive (a : ActionName) : Prop :=
  a = ArchiveAccount ∨ a = ArchiveCategory.

(** The table of [e] holds a row with this [id] whose [isArchived] is true
    (transactions have no such flag). *)
Definition archived (e : Entity) (id : string) (db : Db) : Prop :=
  match e with
  | Account =>
      ∃ r, r ∈ accounts db ∧ Accounts.id r = id ∧ Accounts.isArchived r = true
  | Category =>
      ∃ r, r ∈ categories db ∧ Categories.id r = id ∧ Categories.isArchived r = true
  | Transaction => False
  end.

(** The request is an update of entity [e] whose payload names the row [id]
    and supplies [isArchived: false]. *)
Definition unarchives (e : Entity) (id : string) (q : Request) : Prop :=
  action q = update_of e
  ∧ payload q !! "id" = Some (JStr id)
  ∧ payload q !! "isArchived" = Some (JBool false).

(** A runtime whose clock reads [t], whose next UUID is [u] and in which no
    supplied date is valid. *)
Definition node (u : string) (t : Z) : Runtime :=
  {| clock := λ _, t; randomUUID := u; coerce_date := λ _, None |}.

(** A database with one archived account of alice. *)
Definition archived_cash : Db := {|
  accounts := [ {| Accounts.id := "a1"; Accounts.userId := "alice";
                   Accounts.name := "Cash"; Accounts.type := None;
                   Accounts.currency := None; Accounts.startingBalance := None;
                   Accounts.isArchived := true; Accounts.createdAt := 10;
                   Accounts.updatedAt := 20 |} ];
  categories := [];
  transactions := [];
  foreign_keys := true |}.

(** The update of that account that supplies [isArchived: false]. *)
Definition unarchive_cash : Request := {|
  action := UpdateAccount;
  runtime := node "" 30;
  payload := <["isArchived" := JBool false]> {[ "id" := JStr "a1" ]};
  context := signed_in "alice" |}.

(** The rows of [u] that a list shows: all of them with [includeArchived],
    the ones that are not archived without. *)
Definition listed {R} (owner : R → string) (flag : R → bool)
    (u : string) (includeArchived : bool) (r : R) : Prop :=
  owner r = u ∧ (includeArchived = false → flag r = false).

#[local] Instance listed_dec {R} (owner : R → string) flag u b (r : R) :
  Decision (listed owner flag u b r).
Proof. unfold listed. apply _. Defined.

(** The payload asks for [includeArchived = b], explicitly or by default. *)
Definition include_archived (p : gmap string Json) (b : bool) : Prop :=
  (p !! "includeArchived" = None ∧ b = false) ∨ p !! "includeArchived" = Some (JBool b).

(** A filter is provided when the payload carries a non-empty string. *)
Definition provided (x : option string) : option string :=
  match x with
  | Some s => if decide (s = "") then None else Some s
  | None => None
  end.

(** A cell agrees with a filter: no filter, or the cell holds its value (a
    NULL cell agrees with no value). *)
Definition agrees (given cell : option string) : Prop :=
  match given with
  | Some x => cell = Some x
  | None => True
  end.

#[local] Instance agrees_dec given cell : Decision (agrees given cell).
Proof. destruct given; simpl; apply _. Defined.

(** The conjunction of the owner condition and of each provided filter. *)
Definition matches (u : string) (accountId categoryId type : option string)
    (r : Transactions.row) : Prop :=
  Transactions.userId r = u
  ∧ agrees (provided accountId) (Transactions.accountId r)
  ∧ agrees (provided categoryId) (Transactions.categoryId r)
  ∧ agrees (provided type) (Some (Transactions.type r)).

#[local] Instance matches_dec u a c t r : Decision (matches u a c t r).
Proof. unfold matches. apply _. Defined.

(** The payload of a page request: optional filters, optional page numbers. *)
Definition page_request (p : gmap string Json)
    (accountId categoryId type : option string) (page pageSize : option Z) : Prop :=
  p !! "accountId" = JStr <$> accountId
  ∧ p !! "categoryId" = JStr <$> categoryId
  ∧ p !! "type" = JStr <$> type
  ∧ (∀ s, type = Some s → s ∈ transaction_types)
  ∧ p !! "page" = (λ n, JNum (Qc_of_Z n)) <$> page
  ∧ p !! "pageSize" = (λ n, JNum (Qc_of_Z n)) <$> pageSize
  ∧ (∀ n, page = Some n → 0 < n)
  ∧ (∀ n, pageSize = Some n → 0 < n).

(** The response is a list whose [total] is the length of its [items]. *)
Definition total_is_length (r : Response) : Prop :=
  match data r with
  | Some (listing items total) | Some (paged items total _ _) => total = length items
  | _ => False
  end.

(** The three list actions. *)
Definition is_list (a : ActionName) : Prop :=
  a = ListAccounts ∨ a = ListCategories ∨ a = ListTransactions.

(** A transaction of [owner] with the given id and amount, on account a1. *)
Definition expense (id owner : string) (amount : Z) : Transactions.row := {|
  Transactions.id := id; Transactions.userId := owner;
  Transactions.accountId := Some "a1"; Transactions.categoryId := None;
  Transactions.type := "expense"; Transactions.amount := Qc_of_Z amount;
  Transactions.currency := None; Transactions.transactionDate := 100;
  Transactions.description := None; Transactions.transferAccountId := None;
  Transactions.createdAt := 100; Transactions.updatedAt := 100 |}.

(** Three transactions of alice and one of bob, in storage order. *)
Definition ledger : Db := {|
  accounts := accounts archived_cash;
  categories := [];
  transactions :=
    [expense "t1" "alice" 5; expense "t0" "bob" 7; expense "t2" "alice" 6;
     expense "t3" "alice" 8];
  foreign_keys := true |}.

(** The request that stores [expense id owner amount]: a create at time 100
    whose UUID is [id]. *)
Definition spend (id owner : string) (amount : Z) : Request := {|
  action := CreateTransaction;
  runtime := node id 100;
  payload := <["type" := JStr "expense"]>
               (<["amount" := JNum (Qc_of_Z amount)]> {[ "accountId" := JStr "a1" ]});
  context := signed_in owner |}.

(** The update of transaction t1 that supplies a [categoryId] naming no
    category. *)
Definition missing_category : gmap string Json :=
  <["categoryId" := JStr "nope"]> {[ "id" := JStr "t1" ]}.

(** The payload [{ page: 2, pageSize: 1 }]. *)
Definition second_page : gmap string Json :=
  <["page" := JNum (Qc_of_Z 2)]> {[ "pageSize" := JNum (Qc_of_Z 1) ]}.

(** A cell of a row object is NULL or a key of the referenced table. *)
Definition cell_resolves (cell : option Value) (keys : list string) : Prop :=
  cell = Some VNull ∨ ∃ k, cell = Some (VStr k) ∧ k ∈ keys.

(** The references that [db/tables.ts] declares for entity [e] hold of a row
    with these cells, when the storage enforces them. *)
Definition references_hold (e : Entity) (row : string → option Value) (db : Db) : Prop :=
  match e with
  | Transaction =>
      foreign_keys db = true →
      cell_resolves (row "accountId") (Accounts.id <$> accounts db)
      ∧ cell_resolves (row "categoryId") (Categories.id <$> categories db)
  | _ => True
  end.

(** The condition [and(eq(T.id, id), eq(T.userId, userId))] of the scoped
    lookups and statements. *)
Definition scoped {R} (key owner : R → string) (id u : string) : R → bool :=
  sql_and [sql_eq key id; sql_eq owner u].

(** ** Vocabulary of the further properties *)

(** The error of [requireUser]. *)
Definition unauthorized : Exception :=
  ActionError UNAUTHORIZED "You must be signed in to perform this action.".

(** The table an action reads or writes. *)
Definition table_of (a : ActionName) : Entity :=
  match a with
  | CreateAccount | UpdateAccount | ArchiveAccount | ListAccounts => Account
  | CreateCategory | UpdateCategory | ArchiveCategory | ListCategories => Category
  | CreateTransaction | UpdateTransaction | DeleteTransaction | ListTransactions =>
      Transaction
  end.

(** The table of [e] is the same in the two databases. *)
Definition untouched (e : Entity) (db db' : Db) : Prop :=
  match e with
  | Account => accounts db' = accounts db
  | Category => categories db' = categories db
  | Transaction => transactions db' = transactions db
  end.

(** The rows of entity [e] that belong to [owner], in storage order, as the
    objects a select returns. *)
Definition rows_owned (e : Entity) (owner : string) (db : Db) : list Obj :=
  match e with
  | Account =>
      Accounts.to_obj <$> List.filter (sql_eq Accounts.userId owner) (accounts db)
  | Category =>
      Categories.to_obj <$> List.filter (sql_eq Categories.userId owner) (categories db)
  | Transaction =>
      Transactions.to_obj
        <$> List.filter (sql_eq Transactions.userId owner) (transactions db)
  end.

(** The items of a list response. *)
Definition items_of (r : Response) : list Obj :=
  match data r with
  | Some (listing items _) | Some (paged items _ _ _) => items
  | _ => []
  end.

(** The create action of an entity. *)
Definition create_of (e : Entity) : ActionName :=
  match e with
  | Account => CreateAccount
  | Category => CreateCategory
  | Transaction => CreateTransaction
  end.

(** The columns a create payload fills, [transactionDate] apart. *)
Definition creatable (e : Entity) : list string :=
  match e with
  | Account => ["name"; "type"; "currency"; "startingBalance"]
  | Category => ["name"; "type"; "icon"; "parentCategoryId"; "sortOrder"]
  | Transaction =>
      ["accountId"; "categoryId"; "type"; "amount"; "currency"; "description";
       "transferAccountId"]
  end.

(** Column [k] of the row a create inserts for caller [u]: the fresh id,
    the caller, the creation time twice, [isArchived] false where the table
    has the flag, the supplied [transactionDate] or else the second clock
    reading, and for every other column the supplied value or else NULL. *)
Definition created_field (e : Entity) (rt : Runtime) (p : gmap string Json)
    (u : string) (k : string) : option Value :=
  if decide (k = "id") then Some (VStr (randomUUID rt))
  else if decide (k = "userId") then Some (VStr u)
  else if decide (k = "createdAt" ∨ k = "updatedAt") then Some (VDate (clock rt 0))
  else if decide (k = "isArchived")
       then match e with Transaction => None | _ => Some (VBool false) end
  else if decide (k = "transactionDate")
       then match e with
            | Transaction =>
                Some (default (VDate (clock rt 1)) (supplied_value rt k <$> p !! k))
            | _ => None
            end
  else if decide (k ∈ creatable e)
       then Some (default VNull (json_value <$> p !! k))
  else None.

(** The primary keys in use in the table of [e]. *)
Definition ids_of (e : Entity) (db : Db) : list string :=
  match e with
  | Account => Accounts.id <$> accounts db
  | Category => Categories.id <$> categories db
  | Transaction => Transactions.id <$> transactions db
  end.

(** The rows of the table of [e], in storage order, as the objects a select
    returns. *)
Definition all_rows (e : Entity) (db : Db) : list Obj :=
  match e with
  | Account => Accounts.to_obj <$> accounts db
  | Category => Categories.to_obj <$> categories db
  | Transaction => Transactions.to_obj <$> transactions db
  end.

(** [undefined] for [null], any other value unchanged. *)
Definition null_to_undefined (v : Value) : Value :=
  match v with VNull => VUndefined | _ => v end.

(** An object with [undefined] wherever the given one has [null]. *)
Definition undefined_for_null (o : Obj) : Obj := null_to_undefined <$> o.

(** The table of [e] holds a row with this [id], this owner and this
    creation time. *)
Definition has_row (e : Entity) (id owner : string) (created : Z) (db : Db) : Prop :=
  match e with
  | Account =>
      ∃ r, r ∈ accounts db ∧ Accounts.id r = id ∧ Accounts.userId r = owner
           ∧ Accounts.createdAt r = created
  | Category =>
      ∃ r, r ∈ categories db ∧ Categories.id r = id ∧ Categories.userId r = owner
           ∧ Categories.createdAt r = created
  | Transaction =>
      ∃ r, r ∈ transactions db ∧ Transactions.id r = id ∧ Transactions.userId r = owner
           ∧ Transactions.createdAt r = created
  end.

(** The request is a [deleteTransaction] whose payload names [id]. *)
Definition deletes (id : string) (q : Request) : Prop :=
  action q = DeleteTransaction ∧ payload q !! "id" = Some (JStr id).

(** What the schemas guarantee of every stored row: a non-empty name for
    accounts and categories, a category type that is absent or one of the
    three transaction types, and for transactions one of the three types and
    a strictly positive amount. *)
Definition account_ok (r : Accounts.row) : Prop := Accounts.name r ≠ "".

Definition category_ok (r : Categories.row) : Prop :=
  Categories.name r ≠ ""
  ∧ ∀ t, Categories.type r = Some t → t ∈ transaction_types.

Definition transaction_ok (r : Transactions.row) : Prop :=
  Transactions.type r ∈ transaction_types ∧ (0 < Transactions.amount r)%Qc.

Definition rows_valid (db : Db) : Prop :=
  Forall account_ok (accounts db)
  ∧ Forall category_ok (categories db)
  ∧ Forall transaction_ok (transactions db).

(** The items a call returns, none when it throws. *)
Definition response_items (x : Outcome Response * Db) : list Obj :=
  match x.1 with
  | Returned r => items_of r
  | Thrown _ => []
  end.

(** The items of page [k] of [listTransactions] for the payload [p], which
    carries the filters and the page size. *)
Definition page_items (rt : Runtime) (p : gmap string Json) (u : string) (db : Db)
    (k : nat) : list Obj :=
  response_items
    (call ListTransactions rt (<["page" := JNum (Qc_of_Z (Z.of_nat k))]> p)
       (signed_in u) db).

(** No field of the object is [null]. *)
Definition null_free (o : Obj) : Prop := ∀ k v, o !! k = Some v → v ≠ VNull.

(** The list action of an entity. *)
Definition list_of (e : Entity) : ActionName :=
  match e with
  | Account => ListAccounts
  | Category => ListCategories
  | Transaction => ListTransactions
  end.

(** The row breaks none of the references declared for [Transactions]
    against the accounts and categories of [db]. *)
Definition row_resolved (db : Db) (r : Transactions.row) : Prop :=
  Forall (λ reference, reference r db = true) (references TransactionsTable).

(** Every stored transaction that names an account or a category names a
    stored one. *)
Definition references_resolved (db : Db) : Prop :=
  Forall (row_resolved db) (transactions db).

(** The deletion of transaction t1 by alice. *)
Definition delete_t1 : Request := {|
  action := DeleteTransaction;
  runtime := node "" 40;
  payload := {[ "id" := JStr "t1" ]};
  context := signed_in "alice" |}.

(** * Properties *)

(** ** Lists of rows *)

Section Rows.
Context {R : Type} (key owner : R → string).

Lemma scoped_true id u r : scoped key owner id u r = true ↔ key r = id ∧ owner r = u.
Proof.
  unfold scoped, sql_and, sql_eq. simpl.
  rewrite andb_true_r, andb_true_iff, !bool_decide_eq_true. done.
Qed.

Lemma filter_scoped_absent id u (l : list R) :
  id ∉ key <$> l → List.filter (scoped key owner id u) l = [].
Proof.
  induction l as [|x l IH]; simpl; [done|].
  rewrite not_elem_of_cons. intros [Hx Hl].
  destruct (scoped key owner id u x) eqn:E; [|auto].
  apply scoped_true in E. naive_solver.
Qed.

(** Under the primary key, a scoped select finds the row with that id when
    the owner matches and nothing otherwise. *)
Lemma filter_scoped_unique id u r (l : list R) :
  NoDup (key <$> l) → r ∈ l → key r = id →
  List.filter (scoped key owner id u) l = if decide (owner r = u) then [r] else [].
Proof.
  induction l as [|x l IH]; simpl; [by rewrite elem_of_nil|].
  rewrite NoDup_cons, elem_of_cons. intros [Hx Hnd] [->|Hr] Hk.
  - rewrite filter_scoped_absent by (by rewrite Hk in Hx).
    destruct (scoped key owner id u x) eqn:E.
    + apply scoped_true in E. by rewrite decide_True by naive_solver.
    + rewrite decide_False; [done|]. intros Ho.
      assert (scoped key owner id u x = true) by (by apply scoped_true). congruence.
  - rewrite IH by done.
    destruct (scoped key owner id u x) eqn:E; [|done].
    apply scoped_true in E. destruct Hx.
    apply list_elem_of_fmap. exists r. naive_solver.
Qed.

(** An update that keeps the condition true reads back through the same
    select as the updated first match. *)
Lemma head_filter_update (w : R → bool) (s : R → R) (l : list R) :
  (∀ x, w x = true → w (s x) = true) →
  head (List.filter w (map (λ x, if w x then s x else x) l))
  = s <$> head (List.filter w l).
Proof.
  intros Hw. induction l as [|x l IH]; simpl; [done|].
  destruct (w x) eqn:E; simpl.
  - by rewrite Hw.
  - by rewrite E.
Qed.

Lemma map_update_keys (w : R → bool) (s : R → R) (l : list R) :
  (∀ x, key (s x) = key x) →
  key <$> map (λ x, if w x then s x else x) l = key <$> l.
Proof.
  intros Hs. induction l as [|x l IH]; simpl; [done|].
  f_equal; [|done]. by destruct (w x).
Qed.

Lemma NoDup_keys_filter (w : R → bool) (l : list R) :
  NoDup (key <$> l) → NoDup (key <$> List.filter w l).
Proof.
  induction l as [|x l IH]; simpl; [done|].
  rewrite NoDup_cons. intros [Hx Hnd].
  destruct (w x); simpl; [|auto].
  apply NoDup_cons. split; [|auto].
  rewrite list_elem_of_fmap in *. intros (y & Hy & Hin).
  apply Hx. exists y. split; [done|].
  apply list_elem_of_In. apply list_elem_of_In, filter_In in Hin. tauto.
Qed.

Lemma NoDup_keys_insert (v : R) (l : list R) :
  NoDup (key <$> l) →
  existsb (λ r, bool_decide (key r = key v)) l = false →
  NoDup (key <$> (l ++ [v])%list).
Proof.
  intros Hnd Hex. rewrite fmap_app. apply NoDup_app. split; [done|].
  split; [|apply NoDup_singleton].
  intros k Hk. simpl. rewrite list_elem_of_singleton. intros ->.
  apply list_elem_of_fmap in Hk as (y & Hy & Hin).
  assert (existsb (λ r, bool_decide (key r = key v)) l = true); [|congruence].
  apply existsb_exists. exists y. split; [by apply list_elem_of_In|].
  by apply bool_decide_eq_true.
Qed.
End Rows.

(** ** Unfolding the handlers *)

Ltac act_unfold :=
  unfold serve, call, server.createAccount, server.updateAccount, server.archiveAccount,
    server.listAccounts, server.createCategory, server.updateCategory,
    server.archiveCategory, server.listCategories, server.createTransaction,
    server.updateTransaction, server.deleteTransaction, server.listTransactions,
    defineAction, requireUser, getAccountForUser, getCategoryForUser,
    getTransactionForUser, db_select, db_select_page, db_insert, db_update, db_delete,
    dangling, throw, mbind, mret, Act_bind, Act_ret, bind, ret in *.

(** Splits a successful schema parse into the parses of its fields. *)
Ltac schema_fields H :=
  repeat (let x := fresh "x" in let Hx := fresh "Hx" in
          apply bind_Some in H as (x & Hx & H));
  simplify_eq/=.

Lemma z_string_Some v s : z.string v = Some s ↔ v = Some (JStr s).
Proof.
  unfold z.string. split; [|by intros ->].
  destruct v as [[]|]; naive_solver.
Qed.

(** The scoped lookups in terms of [scoped]. *)
Lemma getAccountForUser_eq id u db :
  getAccountForUser id u db
  = (Returned (head (List.filter (scoped Accounts.id Accounts.userId id u) (accounts db))), db).
Proof. done. Qed.

Lemma getCategoryForUser_eq id u db :
  getCategoryForUser id u db
  = (Returned (head (List.filter (scoped Categories.id Categories.userId id u)
                       (categories db))), db).
Proof. done. Qed.

Lemma getTransactionForUser_eq id u db :
  getTransactionForUser id u db
  = (Returned (head (List.filter (scoped Transactions.id Transactions.userId id u)
                       (transactions db))), db).
Proof. done. Qed.

(** What a targeting action does, given the outcome of its lookup: without a
    caller it throws UNAUTHORIZED, without a match NOT_FOUND; in both cases
    the database is the one it started from. *)
Lemma target_no_match a e rt p u id db :
  targets a = Some e → accepts a rt p → p !! "id" = Some (JStr id) →
  stored e id u db = None →
  call a rt p (signed_in u) db = (Thrown (not_found e), db).
Proof.
  intros Ht Ha Hid Hst.
  destruct a; simplify_eq/=; destruct Ha as [i Hi];
    unfold stored, found in Hst; act_unfold; simpl in *;
    rewrite Hi; schema_fields Hi;
    match goal with H : z.string _ = Some _ |- _ => apply z_string_Some in H end;
    simplify_eq/=;
    match goal with |- context [head ?l] => destruct (head l) end; simplify_eq/=; done.
Qed.

Lemma target_returns a e rt p ctx id db resp db' :
  targets a = Some e → p !! "id" = Some (JStr id) →
  call a rt p ctx db = (Returned resp, db') →
  ∃ u, caller ctx = Some u ∧ is_Some (stored e id u db).
Proof.
  intros Ht Hid Hc. unfold caller.
  destruct ctx as [[[[[uid]|]]|]];
    destruct a; simplify_eq/=; unfold stored, found; act_unfold; simpl in *;
    match type of Hc with context [match ?s with Some _ => _ | None => _ end] =>
      destruct s as [i|] eqn:Hi; [|done] end;
    schema_fields Hi;
    match goal with H : z.string _ = Some _ |- _ => apply z_string_Some in H end;
    simplify_eq/=.
  all: exists uid; (split; [done|]).
  all: match goal with |- context [head ?l] => destruct (head l) end; simplify_eq/=; eauto.
Qed.

(** Under the primary key, a scoped lookup of a row of owner [A] finds it
    for [A] only. *)
Lemma stored_owner e id A u db :
  pk_unique db → owned e id A db → is_Some (stored e id u db) → u = A.
Proof.
  intros (Ha & Hc & Ht) Ho [o Hs].
  destruct e; simpl in Ho; destruct Ho as (r & Hin & Hid & Hown);
    unfold stored, found in Hs;
    [rewrite getAccountForUser_eq in Hs
    |rewrite getCategoryForUser_eq in Hs
    |rewrite getTransactionForUser_eq in Hs];
    simpl in Hs;
    erewrite filter_scoped_unique in Hs by done;
    by case_decide; simplify_eq/=.
Qed.

Lemma stored_other_owner e id A B db :
  pk_unique db → owned e id A db → B ≠ A → stored e id B db = None.
Proof.
  intros Hpk Ho Hne. destruct (stored e id B db) eqn:E; [|done].
  destruct Hne. eapply stored_owner; eauto.
Qed.

(** ** Ownership *)

(** C1. Cross-owner access is invisible.  In a database that satisfies the
    primary key, let a row of entity [e] with identifier [id] belong to owner
    [A], and let [B] be another caller.  The single-row lookup issued as [B]
    returns the no-match value; every update, archive or delete of that
    identifier issued as [B] throws NOT_FOUND when its input is valid, leaves
    the database as it was, and in no case returns a response; and any such
    action that does return was called by [A]. *)
Theorem cross_owner_access_not_found (db : Db) (e : Entity) (id A B : string) :
  pk_unique db → owned e id A db → B ≠ A →
  match e with
  | Account => getAccountForUser id B db = (Returned None, db)
  | Category => getCategoryForUser id B db = (Returned None, db)
  | Transaction => getTransactionForUser id B db = (Returned None, db)
  end
  ∧ (∀ a rt p, targets a = Some e → p !! "id" = Some (JStr id) →
       (accepts a rt p → call a rt p (signed_in B) db = (Thrown (not_found e), db))
       ∧ (∀ resp db', call a rt p (signed_in B) db ≠ (Returned resp, db')))
  ∧ (∀ a rt p ctx resp db', targets a = Some e → p !! "id" = Some (JStr id) →
       call a rt p ctx db = (Returned resp, db') → caller ctx = Some A).
Proof.
  intros Hpk Ho Hne. split; [|split].
  - pose proof (stored_other_owner e id A B db Hpk Ho Hne) as Hs.
    destruct e; unfold stored, found in Hs;
      [rewrite getAccountForUser_eq in *
      |rewrite getCategoryForUser_eq in *
      |rewrite getTransactionForUser_eq in *];
      simpl in Hs; f_equal; f_equal;
      match goal with |- ?x = None => by destruct x end.
  - intros a rt p Ht Hid. split.
    + intros Hacc. apply (target_no_match a e rt p B id db); auto.
      by apply (stored_other_owner e id A).
    + intros resp db' Hc.
      destruct (target_returns _ _ _ _ _ _ _ _ _ Ht Hid Hc) as (u & Hu & Hs).
      injection Hu as <-. apply Hne. eapply stored_owner; eauto.
  - intros a rt p ctx resp db' Ht Hid Hc.
    destruct (target_returns _ _ _ _ _ _ _ _ _ Ht Hid Hc) as (u & Hu & Hs).
    rewrite Hu. f_equal. eapply stored_owner; eauto.
Qed.

(** ** Failure leaves no trace *)

(** C2. Whatever a request throws (UNAUTHORIZED without a caller,
    NOT_FOUND, the validation error, or an error of the storage client), the
    database after the request is the database before it: every throw
    happens before the handler's mutating statement and none after it. *)
Theorem failure_leaves_state_unchanged (q : Request) (db db' : Db) (e : Exception) :
  serve q db = (Thrown e, db') → db' = db.
Proof.
  destruct q as [a rt p ctx]. destruct a; act_unfold; simpl; intros H.
  all: repeat (case_match; simplify_eq/=); done.
Qed.

(** ** Objects: lookups through spreads and optional keys *)

Lemma lookup_opt_key {A} k (f : A → Value) x (o : Obj) j :
  opt_key k f x o !! j
  = if decide (k = j) then match x with Some v => Some (f v) | None => o !! j end
    else o !! j.
Proof.
  unfold opt_key. destruct x; [apply lookup_insert|]. by case_decide.
Qed.

Ltac obj_lookup :=
  rewrite ?lookup_insert, ?lookup_union, ?lookup_opt_key, ?lookup_insert, ?lookup_empty.

Ltac by_key := repeat (case_decide; simplify_eq/=; try done).

(** ** What a payload supplies *)

Lemma reads_string : reads z.string VStr json_value.
Proof. intros j a H. apply z_string_Some in H. by simplify_eq. Qed.

Lemma reads_min n : reads (z.min n z.string) VStr json_value.
Proof.
  intros j a H. unfold z.min in H. apply bind_Some in H as (s & Hs & H).
  case_decide; simplify_eq. by apply reads_string.
Qed.

Lemma reads_enum l : reads (z.enum l) VStr json_value.
Proof. intros [] a H; simpl in H; try done. by case_decide; simplify_eq. Qed.

Lemma reads_number : reads z.number VNum json_value.
Proof. by intros [] a H; simplify_eq/=. Qed.

Lemma reads_positive : reads (z.positive z.number) VNum json_value.
Proof.
  intros j a H. unfold z.positive in H. apply bind_Some in H as (s & Hs & H).
  case_decide; simplify_eq. by apply reads_number.
Qed.

Lemma reads_boolean : reads z.boolean VBool json_value.
Proof. by intros [] a H; simplify_eq/=. Qed.

Lemma reads_coerce_date rt :
  reads (z.coerce_date rt) VDate (supplied_value rt "transactionDate").
Proof. intros j a H. unfold supplied_value. simpl in *. by rewrite H. Qed.

Lemma optional_supplied {A} (val : z.Validator A) inj f v x :
  reads val inj f → z.optional val v = Some x → inj <$> x = f <$> v.
Proof.
  intros Hr H. unfold z.optional in H. destruct v as [j|]; simplify_eq/=; [|done].
  apply fmap_Some in H as (a & Ha & ->). simpl. f_equal. by apply Hr.
Qed.

Create HintDb reads.

#[local] Hint Resolve reads_string reads_min reads_enum reads_number reads_positive
  reads_boolean reads_coerce_date : reads.

(** Rewrites the parse of every optional field into what the payload
    supplies for it. *)
Ltac optional_fields :=
  repeat match goal with
         | H : z.optional _ _ = Some _ |- _ =>
             eapply optional_supplied in H; [|solve [eauto with reads]]
         end.

(** ** The parsed input of an update, key by key *)

Lemma UpdateAccountInput_parsed rt p i :
  UpdateAccountInput.schema rt p = Some i →
  ∀ k, UpdateAccountInput.to_obj i !! k
       = if decide (k = "id") then Some (VStr (UpdateAccountInput.id i))
         else if decide (k ∈ mutable Account) then supplied_value rt k <$> p !! k
         else None.
Proof.
  intros Hi k. unfold UpdateAccountInput.schema in Hi. schema_fields Hi.
  optional_fields. unfold UpdateAccountInput.to_obj. simpl.
  obj_lookup. by_key. all: exfalso; set_solver.
Qed.

Lemma UpdateCategoryInput_parsed rt p i :
  UpdateCategoryInput.schema rt p = Some i →
  ∀ k, UpdateCategoryInput.to_obj i !! k
       = if decide (k = "id") then Some (VStr (UpdateCategoryInput.id i))
         else if decide (k ∈ mutable Category) then supplied_value rt k <$> p !! k
         else None.
Proof.
  intros Hi k. unfold UpdateCategoryInput.schema in Hi. schema_fields Hi.
  optional_fields. unfold UpdateCategoryInput.to_obj. simpl.
  obj_lookup. by_key. all: exfalso; set_solver.
Qed.

Lemma UpdateTransactionInput_parsed rt p i :
  UpdateTransactionInput.schema rt p = Some i →
  ∀ k, UpdateTransactionInput.to_obj i !! k
       = if decide (k = "id") then Some (VStr (UpdateTransactionInput.id i))
         else if decide (k ∈ mutable Transaction) then supplied_value rt k <$> p !! k
         else None.
Proof.
  intros Hi k. unfold UpdateTransactionInput.schema in Hi. schema_fields Hi.
  optional_fields. unfold UpdateTransactionInput.to_obj. simpl.
  obj_lookup. by_key. all: exfalso; set_solver.
Qed.

(** ** The merged view is the persisted row *)

Lemma Accounts_merge (i : UpdateAccountInput.t) (r : Accounts.row) (now : Z) :
  UpdateAccountInput.id i = Accounts.id r →
  <["updatedAt" := VDate now]> (UpdateAccountInput.to_obj i ∪ Accounts.to_obj r)
  = Accounts.to_obj {|
      Accounts.id := Accounts.id r;
      Accounts.userId := Accounts.userId r;
      Accounts.name := nullish (UpdateAccountInput.name i) (Accounts.name r);
      Accounts.type := nullish_opt (UpdateAccountInput.type i) (Accounts.type r);
      Accounts.currency :=
        nullish_opt (UpdateAccountInput.currency i) (Accounts.currency r);
      Accounts.startingBalance :=
        nullish_opt (UpdateAccountInput.startingBalance i) (Accounts.startingBalance r);
      Accounts.isArchived :=
        nullish (UpdateAccountInput.isArchived i) (Accounts.isArchived r);
      Accounts.createdAt := Accounts.createdAt r;
      Accounts.updatedAt := now |}.
Proof.
  intros Hid. apply map_eq. intros k.
  destruct i as [iid n t c s a]; simpl in Hid; subst.
  unfold Accounts.to_obj, Accounts.obj, UpdateAccountInput.to_obj. simpl.
  obj_lookup. by_key.
  all: by destruct n, t, c, s, a.
Qed.

Lemma Categories_merge (i : UpdateCategoryInput.t) (r : Categories.row) (now : Z) :
  UpdateCategoryInput.id i = Categories.id r →
  <["updatedAt" := VDate now]> (UpdateCategoryInput.to_obj i ∪ Categories.to_obj r)
  = Categories.to_obj {|
      Categories.id := Categories.id r;
      Categories.userId := Categories.userId r;
      Categories.name := nullish (UpdateCategoryInput.name i) (Categories.name r);
      Categories.type := nullish_opt (UpdateCategoryInput.type i) (Categories.type r);
      Categories.icon := nullish_opt (UpdateCategoryInput.icon i) (Categories.icon r);
      Categories.parentCategoryId :=
        nullish_opt (UpdateCategoryInput.parentCategoryId i)
                    (Categories.parentCategoryId r);
      Categories.sortOrder :=
        nullish_opt (UpdateCategoryInput.sortOrder i) (Categories.sortOrder r);
      Categories.isArchived :=
        nullish (UpdateCategoryInput.isArchived i) (Categories.isArchived r);
      Categories.createdAt := Categories.createdAt r;
      Categories.updatedAt := now |}.
Proof.
  intros Hid. apply map_eq. intros k.
  destruct i as [iid n t c pc s a]; simpl in Hid; subst.
  unfold Categories.to_obj, Categories.obj, UpdateCategoryInput.to_obj. simpl.
  obj_lookup. by_key.
  all: by destruct n, t, c, pc, s, a.
Qed.

Lemma Transactions_merge (i : UpdateTransactionInput.t) (r : Transactions.row) (now : Z) :
  UpdateTransactionInput.id i = Transactions.id r →
  <["updatedAt" := VDate now]> (UpdateTransactionInput.to_obj i ∪ Transactions.to_obj r)
  = Transactions.to_obj {|
      Transactions.id := Transactions.id r;
      Transactions.userId := Transactions.userId r;
      Transactions.accountId :=
        nullish_opt (UpdateTransactionInput.accountId i) (Transactions.accountId r);
      Transactions.categoryId :=
        nullish_opt (UpdateTransactionInput.categoryId i) (Transactions.categoryId r);
      Transactions.type := nullish (UpdateTransactionInput.type i) (Transactions.type r);
      Transactions.amount :=
        nullish (UpdateTransactionInput.amount i) (Transactions.amount r);
      Transactions.currency :=
        nullish_opt (UpdateTransactionInput.currency i) (Transactions.currency r);
      Transactions.transactionDate :=
        nullish (UpdateTransactionInput.transactionDate i) (Transactions.transactionDate r);
      Transactions.description :=
        nullish_opt (UpdateTransactionInput.description i) (Transactions.description r);
      Transactions.transferAccountId :=
        nullish_opt (UpdateTransactionInput.transferAccountId i)
                    (Transactions.transferAccountId r);
      Transactions.createdAt := Transactions.createdAt r;
      Transactions.updatedAt := now |}.
Proof.
  intros Hid. apply map_eq. intros k.
  destruct i as [iid a c t am cu d de tr]; simpl in Hid; subst.
  unfold Transactions.to_obj, Transactions.obj, UpdateTransactionInput.to_obj. simpl.
  obj_lookup. by_key.
  - by destruct a.
  - by destruct c.
  - by destruct t.
  - by destruct am.
  - by destruct cu.
  - by destruct d.
  - by destruct de.
  - by destruct tr.
Qed.

(** ** Updates *)

Lemma head_filter_true {R} (w : R → bool) l r :
  head (List.filter w l) = Some r → w r = true.
Proof.
  intros H. apply head_Some_elem_of, list_elem_of_In, filter_In in H. tauto.
Qed.

(** The merged view [{...row, ...input, updatedAt}] read key by key is the
    row the specification describes. *)
Lemma updated_field_merge e rt p (parsed o : Obj) (id : string) k :
  o !! "id" = Some (VStr id) →
  (∀ k, parsed !! k = if decide (k = "id") then Some (VStr id)
                      else if decide (k ∈ mutable e) then supplied_value rt k <$> p !! k
                      else None) →
  (<["updatedAt" := VDate (clock rt 0)]> (parsed ∪ o)) !! k = updated_field e rt p o k.
Proof.
  intros Hid Hp. unfold updated_field. rewrite lookup_insert, lookup_union, Hp.
  repeat case_decide; simplify_eq/=; try done.
  - exfalso. destruct e; set_solver.
  - by rewrite Hid.
  - by destruct (p !! k), (o !! k).
  - by destruct (o !! k).
Qed.

Ltac unfold_to_obj :=
  try unfold Accounts.to_obj, Accounts.obj;
  try unfold Categories.to_obj, Categories.obj;
  try unfold Transactions.to_obj, Transactions.obj.

Lemma references_hold_ext e (f g : string → option Value) db :
  (∀ k, f k = g k) → references_hold e f db → references_hold e g db.
Proof. intros H. destruct e; simpl; by rewrite ?H. Qed.

Lemma cell_resolves_of_opt (x : option string) keys :
  cell_resolves (Some (of_opt VNull VStr x)) keys → resolves x keys = true.
Proof.
  intros [H|(k & H & Hk)]; destruct x; simplify_eq/=; try done.
  by apply bool_decide_eq_true.
Qed.

Lemma existsb_fmap_const {A B} (f : B → bool) (g : A → B) (l : list A) (c : bool) :
  (∀ x, f (g x) = c) → l ≠ [] → existsb f (g <$> l) = c.
Proof.
  intros Hc Hl. destruct l as [|x l]; [done|]. clear Hl.
  induction l as [|y l IH]; simpl in *.
  - by rewrite Hc, orb_false_r.
  - rewrite !Hc in *. by destruct c; simpl in *.
Qed.

Lemma dangling_transactions (s : Transactions.row → Transactions.row) l a c db :
  l ≠ [] →
  (∀ x, Transactions.accountId (s x) = a) →
  (∀ x, Transactions.categoryId (s x) = c) →
  dangling TransactionsTable (s <$> l) db
  = (negb (resolves a (Accounts.id <$> accounts db))
     || negb (resolves c (Categories.id <$> categories db)))
    && foreign_keys db.
Proof.
  intros Hl Ha Hc. unfold dangling. simpl.
  rewrite (existsb_fmap_const _ s l (negb (resolves a (Accounts.id <$> accounts db))))
    by (done || by intros; rewrite Ha).
  rewrite (existsb_fmap_const _ s l (negb (resolves c (Categories.id <$> categories db))))
    by (done || by intros; rewrite Hc).
  by rewrite orb_false_r.
Qed.

(** The lookup of an update found the row [r] named by the payload. *)
Ltac update_prepare i Hi Hst schema get_eq inp_id :=
  let Hiid := fresh "Hiid" in
  match type of Hst with stored _ ?id _ _ = _ =>
    assert (inp_id i = id) as Hiid
      by (let Hi' := fresh in
          pose proof Hi as Hi'; unfold schema in Hi'; schema_fields Hi';
          match goal with H : z.string _ = Some _ |- _ => apply z_string_Some in H end;
          simpl; congruence);
    subst id
  end;
  unfold stored, found in Hst; rewrite get_eq in Hst; simpl in Hst;
  let r := fresh "r" in let Hr := fresh "Hr" in
  apply fmap_Some in Hst as (r & Hr & ->);
  let Hrid := fresh "Hrid" in let Hru := fresh "Hru" in
  pose proof (head_filter_true _ _ _ Hr) as [Hrid Hru]%scoped_true;
  unfold scoped in Hr.

(** The stored row after the rewrite is the merged view. *)
Ltac update_stored Hr get_eq merge :=
  unfold stored, found; rewrite get_eq; simpl; unfold scoped;
  rewrite head_filter_update;
  [ rewrite Hr; simpl; f_equal; symmetry; apply merge; congruence
  | let x := fresh in
    intros x; rewrite <- !Is_true_true; unfold sql_and, sql_eq; simpl;
    rewrite !andb_True, !bool_decide_spec; simpl; tauto ].

(** The merged view, column by column. *)
Ltac update_fields Hi parsed inp_id i :=
  let k := fresh in
  intros k; apply updated_field_merge with (id := inp_id i);
  [ unfold_to_obj; rewrite lookup_insert_eq; congruence
  | apply (parsed _ _ _ Hi) ].

(** The update of a table without references returns. *)
Ltac update_returns i Hi Hr get_eq merge :=
  match goal with |- (_ ∨ ?R) ∧ _ =>
    let HR := fresh "HR" in
    assert R as HR
      by (eexists; split;
          [ act_unfold; rewrite Hi; simpl; rewrite Hr; reflexivity
          | update_stored Hr get_eq merge ]);
    split; [by right|];
    let db' := fresh in let Hc := fresh in
    intros _; destruct HR as (db' & Hc & _); by rewrite Hc
  end.

(** An accepted update of an existing row of the caller: the storage
    rejects the statement, or the handler returns the merged view, which is
    then the stored row; the storage does not reject a row whose references
    hold. *)
Lemma update_effect e rt p u id o db :
  stored e id u db = Some o → p !! "id" = Some (JStr id) → accepts (update_of e) rt p →
  ∃ o',
    (∀ k, o' !! k = updated_field e rt p o k)
    ∧ (call (update_of e) rt p (signed_in u) db = (Thrown SqlError, db)
       ∨ ∃ db',
           call (update_of e) rt p (signed_in u) db
           = (Returned {| success := true; data := Some (entity (entity_key e) o') |}, db')
           ∧ stored e id u db' = Some o')
    ∧ (references_hold e (o' !!.) db →
       call (update_of e) rt p (signed_in u) db ≠ (Thrown SqlError, db)).
Proof.
  intros Hst Hid Hacc. destruct e; destruct Hacc as [i Hi]; simpl.
  - update_prepare i Hi Hst UpdateAccountInput.schema getAccountForUser_eq
      UpdateAccountInput.id.
    eexists. split; [update_fields Hi UpdateAccountInput_parsed UpdateAccountInput.id i|].
    update_returns i Hi Hr getAccountForUser_eq Accounts_merge.
  - update_prepare i Hi Hst UpdateCategoryInput.schema getCategoryForUser_eq
      UpdateCategoryInput.id.
    eexists. split; [update_fields Hi UpdateCategoryInput_parsed UpdateCategoryInput.id i|].
    update_returns i Hi Hr getCategoryForUser_eq Categories_merge.
  - update_prepare i Hi Hst UpdateTransactionInput.schema getTransactionForUser_eq
      UpdateTransactionInput.id.
    eexists.
    split; [update_fields Hi UpdateTransactionInput_parsed UpdateTransactionInput.id i|].
    assert (List.filter (sql_and [sql_eq Transactions.id (UpdateTransactionInput.id i);
                                  sql_eq Transactions.userId u]) (transactions db) ≠ [])
      as Hne by (intros Hnil; by rewrite Hnil in Hr).
    pose proof (dangling_transactions
      (λ r0, {|
         Transactions.id := Transactions.id r0;
         Transactions.userId := Transactions.userId r0;
         Transactions.accountId :=
           nullish_opt (UpdateTransactionInput.accountId i) (Transactions.accountId r);
         Transactions.categoryId :=
           nullish_opt (UpdateTransactionInput.categoryId i) (Transactions.categoryId r);
         Transactions.type :=
           nullish (UpdateTransactionInput.type i) (Transactions.type r);
         Transactions.amount :=
           nullish (UpdateTransactionInput.amount i) (Transactions.amount r);
         Transactions.currency :=
           nullish_opt (UpdateTransactionInput.currency i) (Transactions.currency r);
         Transactions.transactionDate :=
           nullish (UpdateTransactionInput.transactionDate i)
                   (Transactions.transactionDate r);
         Transactions.description :=
           nullish_opt (UpdateTransactionInput.description i)
                       (Transactions.description r);
         Transactions.transferAccountId :=
           nullish_opt (UpdateTransactionInput.transferAccountId i)
                       (Transactions.transferAccountId r);
         Transactions.createdAt := Transactions.createdAt r0;
         Transactions.updatedAt := clock rt 0 |})
      _ _ _ db Hne (λ _, eq_refl) (λ _, eq_refl)) as HD.
    simpl in HD.
    match type of HD with ?d = _ => destruct d eqn:Hd end.
    + split.
      * left. unfold call, update_of, server.updateTransaction, defineAction, requireUser,
          getTransactionForUser, db_select, db_update, throw, mbind, mret, Act_bind,
          Act_ret, bind, ret.
        rewrite Hi. simpl. rewrite Hr. by rewrite Hd.
      * intros Href. simpl in Href.
        rewrite (Transactions_merge i r (clock rt 0)) in Href by congruence.
        unfold Transactions.to_obj, Transactions.obj in Href.
        rewrite !lookup_insert in Href. simpl in Href.
        destruct (foreign_keys db); [|by rewrite andb_false_r in HD].
        destruct (Href eq_refl) as [Ha Hc].
        apply cell_resolves_of_opt in Ha, Hc. by rewrite Ha, Hc in HD.
    + assert (∀ A B (x : A) (y : B), (x, y) ≠ (x, y) → False) as _ by (intros; done).
      match goal with
      | |- (_ ∨ ?R) ∧ _ => assert R as (db' & Hcall & Hs)
      end.
      { eexists. split.
        - unfold call, update_of, server.updateTransaction, defineAction, requireUser,
            getTransactionForUser, db_select, db_update, throw, mbind, mret, Act_bind,
            Act_ret, bind, ret.
          rewrite Hi. simpl. rewrite Hr. rewrite Hd. reflexivity.
        - update_stored Hr getTransactionForUser_eq Transactions_merge. }
      split; [right; by exists db'|]. intros _. by rewrite Hcall.
Qed.

Lemma call_caller a rt p ctx u db :
  caller ctx = Some u → call a rt p ctx db = call a rt p (signed_in u) db.
Proof.
  destruct ctx as [[[[[uid]|]]|]]; unfold caller; simpl; intros; simplify_eq/=; done.
Qed.

Lemma returned_accepts a rt p ctx db resp db' :
  call a rt p ctx db = (Returned resp, db') → accepts a rt p.
Proof.
  destruct a; act_unfold; simpl;
    match goal with |- context [match ?s with Some _ => _ | None => _ end] =>
      destruct s; [by eexists|done] end.
Qed.

Lemma accepts_id a e rt p :
  targets a = Some e → accepts a rt p → ∃ id, p !! "id" = Some (JStr id).
Proof.
  intros Ht Ha. destruct a; simplify_eq/=; destruct Ha as [i Hi];
    schema_fields Hi;
    match goal with H : z.string _ = Some _ |- _ => apply z_string_Some in H end;
    eauto.
Qed.

Lemma targets_update e : targets (update_of e) = Some e.
Proof. by destruct e. Qed.

(** C3, as amended.  A partial update changes exactly what it supplies,
    unless the storage refuses it.  For an existing row of the caller (the
    lookup under [id] and [u] reads [o]) and a valid update payload for that
    [id] whose account and category, where the storage enforces the
    references declared in [db/tables.ts], exist, the update succeeds and the
    row then stored under that [id] reads, column by column: the new time for
    [updatedAt], the supplied value for every mutable column present in the
    payload, and the prior value for every other column.  In particular a
    payload that supplies no mutable column changes only [updatedAt]. *)
Theorem update_changes_exactly_supplied_fields
    (e : Entity) (rt : Runtime) (p : gmap string Json) (u id : string) (o : Obj) (db : Db) :
  stored e id u db = Some o → p !! "id" = Some (JStr id) → accepts (update_of e) rt p →
  references_hold e (updated_field e rt p o) db →
  ∃ resp db' o',
    call (update_of e) rt p (signed_in u) db = (Returned resp, db')
    ∧ stored e id u db' = Some o'
    ∧ (∀ k, o' !! k = updated_field e rt p o k)
    ∧ ((∀ k, k ∈ mutable e → p !! k = None) →
       o' = <["updatedAt" := VDate (clock rt 0)]> o).
Proof.
  intros Hst Hid Hacc Href.
  destruct (update_effect e rt p u id o db Hst Hid Hacc) as (o' & Hk & Hc & Hok).
  destruct Hc as [Hc|(db' & Hc & Hs)].
  { destruct Hok; [|done]. by apply (references_hold_ext e (updated_field e rt p o)). }
  eexists _, db', o'. repeat split; try done.
  intros Hnone. apply map_eq. intros k. rewrite Hk, lookup_insert.
  unfold updated_field. repeat case_decide; simplify_eq/=; try done.
  by rewrite Hnone.
Qed.

(** C3 as stated fails: the database [ledger], reached by six requests,
    holds the transaction [t1] of alice; her update of it, valid input that
    supplies a [categoryId] naming no category, is refused by the storage,
    which enforces the reference declared in [db/tables.ts], and the row
    keeps its [categoryId] and its [updatedAt]. *)
Lemma update_naming_missing_category_is_refused :
  serve_all [ {| action := CreateAccount; runtime := node "a1" 10;
                 payload := {[ "name" := JStr "Cash" ]}; context := signed_in "alice" |};
              {| action := ArchiveAccount; runtime := node "" 20;
                 payload := {[ "id" := JStr "a1" ]}; context := signed_in "alice" |};
              spend "t1" "alice" 5; spend "t0" "bob" 7; spend "t2" "alice" 6;
              spend "t3" "alice" 8 ]
            (empty_db true) = ledger
  ∧ stored Transaction "t1" "alice" ledger
    = Some (Transactions.to_obj (expense "t1" "alice" 5))
  ∧ accepts UpdateTransaction (node "" 130) missing_category
  ∧ call UpdateTransaction (node "" 130) missing_category (signed_in "alice") ledger
    = (Thrown SqlError, ledger)
  ∧ stored Transaction "t1" "alice"
      (call UpdateTransaction (node "" 130) missing_category (signed_in "alice") ledger).2
    = Some (Transactions.to_obj (expense "t1" "alice" 5))
  ∧ Transactions.to_obj (expense "t1" "alice" 5) !! "categoryId" = Some VNull
  ∧ Transactions.to_obj (expense "t1" "alice" 5) !! "updatedAt" = Some (VDate 100).
Proof.
  split; [by vm_compute|]. split; [reflexivity|]. split; [by eexists|].
  split; [by vm_compute|]. split; [reflexivity|]. split; reflexivity.
Qed.

(** C9. The merged view an update returns is the row it persisted.  When
    an update returns, the caller is identified, the payload names the row by
    a string [id], and the object in the response envelope (the prior row
    spread under the parsed input, with the new [updatedAt]) is exactly what
    the scoped lookup of that [id] reads from the database after the
    update. *)
Theorem update_response_is_persisted_row
    (e : Entity) (rt : Runtime) (p : gmap string Json) (ctx : Context)
    (db : Db) (resp : Response) (db' : Db) :
  call (update_of e) rt p ctx db = (Returned resp, db') →
  ∃ u id o',
    caller ctx = Some u ∧ p !! "id" = Some (JStr id)
    ∧ resp = {| success := true; data := Some (entity (entity_key e) o') |}
    ∧ stored e id u db' = Some o'.
Proof.
  intros Hc.
  pose proof (returned_accepts _ _ _ _ _ _ _ Hc) as Hacc.
  destruct (accepts_id _ _ _ _ (targets_update e) Hacc) as [id Hid].
  destruct (target_returns _ _ _ _ _ _ _ _ _ (targets_update e) Hid Hc)
    as (u & Hu & o & Ho).
  destruct (update_effect e rt p u id o db Ho Hid Hacc)
    as (o' & _ & [Hc'|(db'' & Hc' & Hs)] & _);
    rewrite (call_caller _ _ _ _ u) in Hc by done; [congruence|].
  exists u, id, o'. split; [done|]. split; [done|]. split; congruence.
Qed.

(** ** Archiving *)

Lemma map_update_twice {R} (w : R → bool) (s1 s2 : R → R) (l : list R) :
  (∀ x, w x = true → w (s1 x) = true) → (∀ x, s2 (s1 x) = s2 x) →
  map (λ x, if w x then s2 x else x) (map (λ x, if w x then s1 x else x) l)
  = map (λ x, if w x then s2 x else x) l.
Proof.
  intros Hw Hs. rewrite map_map. apply map_ext. intros x.
  destruct (w x) eqn:E; [|by rewrite E]. by rewrite Hw, Hs.
Qed.

(** A rewritten row still satisfies the scoped condition. *)
Ltac scoped_kept :=
  let x := fresh in
  intros x; rewrite <- !Is_true_true; unfold sql_and, sql_eq; simpl;
  rewrite !andb_True, !bool_decide_spec; simpl; tauto.

Ltac archive_case Hst Hid get_eq :=
  match type of Hid with ?p !! _ = Some (JStr ?id) =>
    match goal with |- _ =>
      let Hi := fresh "Hi" in
      assert (∀ rt', IdInput.schema rt' p = Some {| IdInput.id := id |}) as Hi
        by (intros; unfold IdInput.schema; by rewrite Hid);
      unfold stored, found in Hst; rewrite get_eq in Hst; simpl in Hst;
      let r := fresh "r" in let Hr := fresh "Hr" in
      apply fmap_Some in Hst as (r & Hr & ->);
      unfold scoped in Hr;
      eexists; split; [|split];
      [ act_unfold; rewrite Hi; simpl; rewrite Hr; reflexivity
      | unfold stored, found; rewrite get_eq; simpl; unfold scoped;
        rewrite head_filter_update; [by rewrite Hr|scoped_kept]
      | let rt2 := fresh in
        intros rt2; act_unfold; rewrite !Hi; simpl;
        rewrite head_filter_update, Hr; [|scoped_kept]; simpl;
        f_equal; apply map_update_twice; [scoped_kept|done] ]
    end
  end.

Lemma archive_effect a e rt p u id o db :
  is_archive a → targets a = Some e →
  stored e id u db = Some o → p !! "id" = Some (JStr id) →
  ∃ db',
    call a rt p (signed_in u) db
    = (Returned {| success := true;
                   data := Some (entity (entity_key e)
                     (<["updatedAt" := VDate (clock rt 0)]>
                        (<["isArchived" := VBool true]> o))) |}, db')
    ∧ stored e id u db'
      = Some (<["updatedAt" := VDate (clock rt 0)]> (<["isArchived" := VBool true]> o))
    ∧ ∀ rt2, (call a rt2 p (signed_in u) db').2 = (call a rt2 p (signed_in u) db).2.
Proof.
  intros [->| ->] Ht Hst Hid; simplify_eq/=.
  - archive_case Hst Hid getAccountForUser_eq.
  - archive_case Hst Hid getCategoryForUser_eq.
Qed.

(** C8. Archive sets the flag and is idempotent.  For a row of the caller
    that the lookup reads as [o] (archived or not), the archive action
    succeeds and the stored row becomes [o] with [isArchived] true and
    [updatedAt] the new time, nothing else changed.  Archiving it again, at
    any later time, succeeds again, leaves [isArchived] true and changes only
    [updatedAt]; the database after the two archives is the database that the
    second archive alone produces. *)
Theorem archive_sets_flag_and_is_idempotent
    (a : ActionName) (e : Entity) (rt rt2 : Runtime) (p : gmap string Json)
    (u id : string) (o : Obj) (db : Db) :
  is_archive a → targets a = Some e →
  stored e id u db = Some o → p !! "id" = Some (JStr id) →
  ∃ resp db' o',
    call a rt p (signed_in u) db = (Returned resp, db')
    ∧ stored e id u db' = Some o'
    ∧ o' = <["updatedAt" := VDate (clock rt 0)]> (<["isArchived" := VBool true]> o)
    ∧ ∃ resp2 db'',
        call a rt2 p (signed_in u) db' = (Returned resp2, db'')
        ∧ stored e id u db'' = Some (<["updatedAt" := VDate (clock rt2 0)]> o')
        ∧ db'' = (call a rt2 p (signed_in u) db).2.
Proof.
  intros Ha Ht Hst Hid.
  destruct (archive_effect a e rt p u id o db Ha Ht Hst Hid) as (db' & Hc & Hs & Hidem).
  eexists _, db', _. split; [done|]. split; [done|]. split; [done|].
  destruct (archive_effect a e rt2 p u id _ db' Ha Ht Hs Hid) as (db'' & Hc2 & Hs2 & _).
  eexists _, db''. split; [done|]. split.
  - rewrite Hs2. f_equal. apply map_eq. intros k. rewrite !lookup_insert.
    repeat case_decide; simplify_eq/=; done.
  - by rewrite <- Hidem, Hc2.
Qed.

(** ** Archived rows over sequences of requests *)

(** Every request preserves the primary key. *)
Lemma pk_unique_step q db : pk_unique db → pk_unique (serve q db).2.
Proof.
  intros (Ha & Hc & Ht). destruct q as [a rt p ctx].
  destruct ctx as [[[[[uid]|]]|]]; destruct a; act_unfold; simpl;
    repeat (case_match; simplify_eq/=); try done; unfold pk_unique; simpl;
    (split; [|split]); try done.
  all: try (rewrite map_update_keys; done).
  all: try (apply NoDup_keys_insert; done).
  all: try (apply NoDup_keys_filter; done).
Qed.

Lemma pk_unique_serve_all qs db : pk_unique db → pk_unique (serve_all qs db).
Proof.
  revert db. induction qs as [|q qs IH]; intros db H; [done|].
  simpl. apply IH. by apply pk_unique_step.
Qed.

Lemma NoDup_key_inj {R} (key : R → string) (l : list R) x y :
  NoDup (key <$> l) → x ∈ l → y ∈ l → key x = key y → x = y.
Proof.
  induction l as [|z l IH]; simpl; [by rewrite elem_of_nil|].
  rewrite NoDup_cons, !elem_of_cons, list_elem_of_fmap.
  intros [Hz Hnd] [->|Hx] [->|Hy] Hk; try done.
  - destruct Hz. eauto.
  - destruct Hz. eauto.
  - auto.
Qed.

Lemma optional_boolean_Some v b :
  z.optional z.boolean v = Some (Some b) → v = Some (JBool b).
Proof. destruct v as [[]|]; intros; simplify_eq/=; done. Qed.

Lemma updated_row_member {R} (w : R → bool) (s : R → R) (l : list R) r :
  r ∈ l → (if w r then s r else r) ∈ map (λ x, if w x then s x else x) l.
Proof. intros H. by apply (list_elem_of_fmap_2 (λ x, if w x then s x else x)). Qed.

Lemma UpdateAccountInput_clears rt p i :
  UpdateAccountInput.schema rt p = Some i →
  UpdateAccountInput.isArchived i = Some false →
  p !! "id" = Some (JStr (UpdateAccountInput.id i))
  ∧ p !! "isArchived" = Some (JBool false).
Proof.
  intros Hi Hf. unfold UpdateAccountInput.schema in Hi. schema_fields Hi.
  split; [by apply z_string_Some|by apply optional_boolean_Some].
Qed.

Lemma UpdateCategoryInput_clears rt p i :
  UpdateCategoryInput.schema rt p = Some i →
  UpdateCategoryInput.isArchived i = Some false →
  p !! "id" = Some (JStr (UpdateCategoryInput.id i))
  ∧ p !! "isArchived" = Some (JBool false).
Proof.
  intros Hi Hf. unfold UpdateCategoryInput.schema in Hi. schema_fields Hi.
  split; [by apply z_string_Some|by apply optional_boolean_Some].
Qed.

(** One goal of [archived_step]: the action leaves the archived row [r] in
    place, appends a row, rewrites [r] with [isArchived] true, or is the
    update that clears the flag. *)
Ltac archived_case r Hr Hun key owner inp_archived clears :=
  first
  [ by exists r
  | by (exists r; split; [|done]; apply elem_of_app; left)
  | solve [ eexists; (split; [by apply updated_row_member|]);
            destruct (sql_and _ r) eqn:E; simpl; done ]
  | eexists; (split; [by apply updated_row_member|]);
    destruct (sql_and _ r) eqn:E; simpl; [|done]; (split; [done|]);
    match goal with H : head _ = Some ?r0 |- _ =>
      let Hr0 := fresh "Hr0" in
      pose proof (head_filter_true _ _ _ H) as Hr0;
      apply head_Some_elem_of, list_elem_of_In, filter_In, proj1, list_elem_of_In in H;
      apply (scoped_true key owner) in E as [E _];
      apply (scoped_true key owner) in Hr0 as [Hr0 _];
      assert (r = r0) as <-
        by (eapply (NoDup_key_inj key); [eassumption|done|done|congruence])
    end;
    rewrite Hr;
    let Ea := fresh "Ea" in
    destruct (inp_archived _) as [[]|] eqn:Ea; try done;
    destruct Hun;
    match goal with H : _ = Some _ |- _ =>
      destruct (clears _ _ _ H Ea) as [? ?] end;
    (split; [done|]); simpl; (split; [congruence|done]) ].

Lemma archived_step e id q db :
  pk_unique db → archived e id db → ¬ unarchives e id q → archived e id (serve q db).2.
Proof.
  intros (Ha & Hc & Ht) Harch Hun. destruct q as [a rt p ctx].
  destruct e; [| |done]; destruct Harch as (r & Hin & Hid & Hr).
  - destruct ctx as [[[[[uid]|]]|]]; destruct a; act_unfold; simpl;
      repeat (case_match; simplify_eq/=);
      archived_case r Hr Hun Accounts.id Accounts.userId
        UpdateAccountInput.isArchived UpdateAccountInput_clears.
  - destruct ctx as [[[[[uid]|]]|]]; destruct a; act_unfold; simpl;
      repeat (case_match; simplify_eq/=);
      archived_case r Hr Hun Categories.id Categories.userId
        UpdateCategoryInput.isArchived UpdateCategoryInput_clears.
Qed.

(** C4, as amended.  There is no unarchive action, but an update accepts
    [isArchived] and writes it.  In a database that satisfies the primary
    key, a row with [isArchived] true keeps it through every sequence of
    requests that contains no update of that row supplying
    [isArchived: false]. *)
Theorem archived_until_update_clears_flag
    (e : Entity) (id : string) (qs : list Request) (db : Db) :
  pk_unique db → archived e id db → Forall (λ q, ¬ unarchives e id q) qs →
  archived e id (serve_all qs db).
Proof.
  revert db. induction qs as [|q qs IH]; intros db Hpk Ha Hqs; [done|].
  apply Forall_cons in Hqs as [Hq Hqs]. simpl. apply IH; [|by apply archived_step|done].
  by apply pk_unique_step.
Qed.

(** C4 as stated fails: the database [archived_cash], reached by a create
    and an archive, holds the archived account [a1]; one update with
    [isArchived: false] leaves no archived row of that id. *)
Lemma update_unarchives_account :
  serve_all [ {| action := CreateAccount; runtime := node "a1" 10;
                 payload := {[ "name" := JStr "Cash" ]}; context := signed_in "alice" |};
              {| action := ArchiveAccount; runtime := node "" 20;
                 payload := {[ "id" := JStr "a1" ]}; context := signed_in "alice" |} ]
            (empty_db true) = archived_cash
  ∧ pk_unique archived_cash
  ∧ archived Account "a1" archived_cash
  ∧ ¬ archived Account "a1" (serve_all [unarchive_cash] archived_cash).
Proof.
  split; [by vm_compute|]. split.
  { repeat split; simpl; repeat constructor; set_solver. }
  split.
  { eexists. split; [by apply list_elem_of_singleton|done]. }
  intros (r & Hin & Hid & Hr). vm_compute in Hin.
  apply list_elem_of_singleton in Hin. by subst.
Qed.

(** ** Lists *)

Lemma filter_bool_Prop {R} (f : R → bool) (P : R → Prop) `{∀ x, Decision (P x)}
    (l : list R) :
  (∀ x, f x = true ↔ P x) → List.filter f l = filter P l.
Proof.
  intros Hf. induction l as [|x l IH]; simpl; [done|].
  rewrite filter_cons. destruct (f x) eqn:E.
  - rewrite decide_True by (by apply Hf). by f_equal.
  - rewrite decide_False; [done|]. rewrite <- Hf. congruence.
Qed.

Lemma ListInput_schema rt p b :
  include_archived p b → ListInput.schema rt p = Some {| ListInput.includeArchived := b |}.
Proof. unfold ListInput.schema. by intros [[-> ->]| ->]. Qed.

(** C5. Lists respect the owner and the archive flag.  With
    [includeArchived] false (explicitly or by default) [listAccounts] and
    [listCategories] return, in storage order, exactly the caller's rows whose
    [isArchived] is false, so never an archived row; with [includeArchived]
    true they return all the caller's rows.  The database is unchanged. *)
Theorem list_shows_owner_rows_by_archive_flag
    (rt : Runtime) (p : gmap string Json) (u : string) (b : bool) (db : Db) :
  include_archived p b →
  (let rows := filter (listed Accounts.userId Accounts.isArchived u b) (accounts db) in
   call ListAccounts rt p (signed_in u) db
   = (Returned {| success := true;
                  data := Some (listing (Accounts.to_obj <$> rows) (length rows)) |}, db))
  ∧ (let rows := filter (listed Categories.userId Categories.isArchived u b) (categories db) in
     call ListCategories rt p (signed_in u) db
     = (Returned {| success := true;
                    data := Some (listing (Categories.to_obj <$> rows) (length rows)) |}, db)).
Proof.
  intros Hb. split; simpl; act_unfold; rewrite (ListInput_schema rt p b Hb); simpl.
  - rewrite (filter_bool_Prop _ (listed Accounts.userId Accounts.isArchived u b)); [done|].
    intros r. unfold listed. destruct b; unfold sql_and, sql_eq; simpl;
      rewrite ?andb_true_r, ?andb_true_iff, !bool_decide_eq_true; naive_solver.
  - rewrite (filter_bool_Prop _ (listed Categories.userId Categories.isArchived u b)); [done|].
    intros r. unfold listed. destruct b; unfold sql_and, sql_eq; simpl;
      rewrite ?andb_true_r, ?andb_true_iff, !bool_decide_eq_true; naive_solver.
Qed.

Lemma truthy_provided s : provided (Some s) = if truthy s then Some s else None.
Proof.
  unfold provided, truthy. case_decide as H.
  - subst. done.
  - destruct (String.eqb_spec s ""); done.
Qed.

Lemma whereClause_matches u i r :
  server.whereClause u i r = true
  ↔ matches u (ListTransactionsInput.accountId i) (ListTransactionsInput.categoryId i)
      (ListTransactionsInput.type i) r.
Proof.
  unfold server.whereClause, matches.
  destruct i as [a c t pg ps]; simpl.
  destruct a as [a|]; [rewrite truthy_provided; destruct (truthy a)|];
  (destruct c as [c|]; [rewrite truthy_provided; destruct (truthy c)|]);
  (destruct t as [t|]; [rewrite truthy_provided; destruct (truthy t)|]);
  unfold sql_and, sql_eq, sql_eq_null, agrees; simpl;
  rewrite ?andb_true_r, ?andb_true_iff, ?bool_decide_eq_true; naive_solver.
Qed.

Lemma number_page_schema (v : option Z) (d : Z) :
  (∀ n, v = Some n → 0 < n) → 0 < d →
  z.default (Qc_of_Z d) (z.positive (z.int z.number)) ((λ n, JNum (Qc_of_Z n)) <$> v)
  = Some (Qc_of_Z (default d v)).
Proof.
  intros Hv Hd. destruct v as [n|]; [|reflexivity].
  assert (0 < Qc_of_Z n)%Qc as Hn
    by (rewrite <- Z2Qc_inj_0; apply (proj1 (Z2Qc_inj_lt 0 n)); by apply Hv).
  unfold z.default, z.positive, z.int, z.number. simpl.
  repeat (case_decide; simpl); done.
Qed.

Lemma to_count_Z n : to_count (Qc_of_Z n) = Z.to_nat n.
Proof. unfold to_count. change (this (Qc_of_Z n)) with (inject_Z n). by rewrite Qfloor_Z. Qed.

Lemma page_request_schema rt p a c t pg ps :
  page_request p a c t pg ps →
  ListTransactionsInput.schema rt p
  = Some {| ListTransactionsInput.accountId := a;
            ListTransactionsInput.categoryId := c;
            ListTransactionsInput.type := t;
            ListTransactionsInput.page := Qc_of_Z (default 1 pg);
            ListTransactionsInput.pageSize := Qc_of_Z (default 20 ps) |}.
Proof.
  intros (Ha & Hc & Ht & Hty & Hpg & Hps & Hpgpos & Hpspos).
  unfold ListTransactionsInput.schema. rewrite Ha, Hc, Ht, Hpg, Hps.
  rewrite !number_page_schema by (done || lia).
  destruct a, c; simpl; destruct t as [t|]; simpl; try done;
    rewrite decide_True by auto; done.
Qed.

(** The [total] of every list response is the length of its [items]. *)
Lemma list_total a rt p ctx db resp db' :
  is_list a → call a rt p ctx db = (Returned resp, db') → total_is_length resp.
Proof.
  intros [->|[->| ->]]; destruct ctx as [[[[[uid]|]]|]]; act_unfold; simpl; intros H;
    repeat (case_match; simplify_eq/=); unfold total_is_length; simpl;
    by rewrite length_fmap.
Qed.

(** C6. A page of transactions.  For a payload that carries optional
    string filters and optional positive integer [page] and [pageSize]
    (defaults 1 and 20), [listTransactions] returns, in storage order, the
    rows that match the owner and each provided filter, limited to
    [pageSize] rows after skipping [(page - 1) * pageSize]; it echoes [page]
    and [pageSize]; and its [total] is the length of the returned page.  The
    [total] of every list action is likewise the length of the returned
    items, whatever the number of matching rows. *)
Theorem listTransactions_page_and_totals
    (rt : Runtime) (p : gmap string Json) (u : string) (db : Db)
    (accountId categoryId type : option string) (page pageSize : option Z) :
  page_request p accountId categoryId type page pageSize →
  (let pg := default 1 page in
   let ps := default 20 pageSize in
   let rows :=
     take (Z.to_nat ps)
       (drop (Z.to_nat ((pg - 1) * ps))
          (filter (matches u accountId categoryId type) (transactions db))) in
   call ListTransactions rt p (signed_in u) db
   = (Returned {| success := true;
                  data := Some (paged (Transactions.to_obj <$> rows) (length rows)
                                      (Qc_of_Z pg) (Qc_of_Z ps)) |}, db))
  ∧ (∀ a rt' p' ctx db0 resp db',
       is_list a → call a rt' p' ctx db0 = (Returned resp, db') → total_is_length resp).
Proof.
  intros Hp. split; [|intros; by eapply list_total].
  intros pg ps rows. simpl. act_unfold.
  rewrite (page_request_schema rt p _ _ _ _ _ Hp). simpl.
  rewrite <- Z2Qc_inj_sub, <- Z2Qc_inj_mul, !to_count_Z.
  rewrite (filter_bool_Prop _ (matches u accountId categoryId type)); [done|].
  intros r. apply (whereClause_matches u
    {| ListTransactionsInput.accountId := accountId;
       ListTransactionsInput.categoryId := categoryId;
       ListTransactionsInput.type := type;
       ListTransactionsInput.page := Qc_of_Z (default 1 page);
       ListTransactionsInput.pageSize := Qc_of_Z (default 20 pageSize) |}).
Qed.

(** C10. An empty-string filter is no filter.  [listTransactions] called
    with [accountId] (or [categoryId]) bound to the empty string behaves, in
    every database and for every caller, exactly as when the key is absent
    from the payload: the filter is not applied, rather than matching rows
    whose cell is the empty string. *)
Theorem empty_filter_is_no_filter
    (rt : Runtime) (p : gmap string Json) (ctx : Context) (db : Db) :
  call ListTransactions rt (<["accountId" := JStr ""]> p) ctx db
  = call ListTransactions rt (delete "accountId" p) ctx db
  ∧ call ListTransactions rt (<["categoryId" := JStr ""]> p) ctx db
    = call ListTransactions rt (delete "categoryId" p) ctx db.
Proof.
  split; simpl; unfold server.listTransactions, defineAction,
    ListTransactionsInput.schema.
  - rewrite lookup_insert_eq, lookup_delete_eq.
    rewrite !lookup_insert_ne, !lookup_delete_ne by done. simpl.
    destruct (z.optional z.string (p !! "categoryId")) as [c|]; simpl; [|done].
    destruct (z.optional _ (p !! "type")) as [t|]; simpl; [|done].
    destruct (z.default _ _ (p !! "page")) as [pg|]; simpl; [|done].
    destruct (z.default _ _ (p !! "pageSize")) as [ps|]; simpl; [|done].
    done.
  - rewrite lookup_insert_eq, lookup_delete_eq.
    rewrite !lookup_insert_ne, !lookup_delete_ne by done. simpl.
    destruct (z.optional z.string (p !! "accountId")) as [c|]; simpl; [|done].
    destruct (z.optional _ (p !! "type")) as [t|]; simpl; [|done].
    destruct (z.default _ _ (p !! "page")) as [pg|]; simpl; [|done].
    destruct (z.default _ _ (p !! "pageSize")) as [ps|]; simpl; [|done].
    done.
Qed.

(** ** Amounts *)

Lemma positive_rejects q : (q ≤ 0)%Qc → z.positive z.number (Some (JNum q)) = None.
Proof.
  intros Hq. unfold z.positive. simpl. rewrite decide_False; [done|].
  by apply Qcle_not_lt.
Qed.

Lemma positive_accepts v q : z.positive z.number v = Some q → v = Some (JNum q) ∧ (0 < q)%Qc.
Proof.
  unfold z.positive. intros H. apply bind_Some in H as (x & Hx & H).
  case_decide; simplify_eq. destruct v as [[]|]; simplify_eq/=. done.
Qed.

(** C7. Amounts are strictly positive.  A payload whose [amount] is a
    number not above zero is rejected by the validation of
    [createTransaction] and of [updateTransaction], before the handler runs
    and whoever the caller is, and the database is unchanged.  Conversely a
    transaction that was created carries a strictly positive [amount], the
    one supplied; and an update that returns and was supplied an [amount]
    was supplied a strictly positive number, which the stored row now
    carries. *)
Theorem amount_must_be_positive
    (rt : Runtime) (p : gmap string Json) (ctx : Context) (db : Db) :
  (∀ q, p !! "amount" = Some (JNum q) → (q ≤ 0)%Qc →
     call CreateTransaction rt p ctx db = (Thrown ActionInputError, db)
     ∧ call UpdateTransaction rt p ctx db = (Thrown ActionInputError, db))
  ∧ (∀ resp db', call CreateTransaction rt p ctx db = (Returned resp, db') →
       ∃ r, transactions db' = (transactions db ++ [r])%list
            ∧ p !! "amount" = Some (JNum (Transactions.amount r))
            ∧ (0 < Transactions.amount r)%Qc)
  ∧ (∀ resp db' v, call UpdateTransaction rt p ctx db = (Returned resp, db') →
       p !! "amount" = Some v →
       ∃ q u id o',
         v = JNum q ∧ (0 < q)%Qc
         ∧ caller ctx = Some u ∧ p !! "id" = Some (JStr id)
         ∧ stored Transaction id u db' = Some o'
         ∧ o' !! "amount" = Some (VNum q)).
Proof.
  split; [|split].
  - intros q Hp Hq. split; simpl; unfold server.createTransaction,
      server.updateTransaction, defineAction, CreateTransactionInput.schema,
      UpdateTransactionInput.schema; rewrite Hp.
    + destruct (z.optional z.string (p !! "accountId")); simpl; [|done].
      destruct (z.optional z.string (p !! "categoryId")); simpl; [|done].
      destruct (z.enum _ (p !! "type")); simpl; [|done].
      by rewrite positive_rejects.
    + destruct (z.string (p !! "id")); simpl; [|done].
      destruct (z.optional z.string (p !! "accountId")); simpl; [|done].
      destruct (z.optional z.string (p !! "categoryId")); simpl; [|done].
      destruct (z.optional _ (p !! "type")); simpl; [|done].
      unfold z.optional at 1. by rewrite positive_rejects.
  - intros resp db' Hc. destruct ctx as [[[[[uid]|]]|]]; act_unfold; simpl in Hc;
      repeat (case_match; simplify_eq/=).
    eexists. split; [done|]. simpl.
    match goal with H : CreateTransactionInput.schema _ _ = Some _ |- _ =>
      unfold CreateTransactionInput.schema in H; schema_fields H end.
    match goal with H : z.positive _ _ = Some _ |- _ =>
      apply positive_accepts in H as [? ?] end. done.
  - intros resp db' v Hc Hv.
    pose proof (returned_accepts _ _ _ _ _ _ _ Hc) as Hacc.
    destruct (accepts_id UpdateTransaction Transaction _ _ eq_refl Hacc) as [id Hid].
    destruct (target_returns UpdateTransaction Transaction _ _ _ _ _ _ _ eq_refl Hid Hc)
      as (u & Hu & o & Ho).
    rewrite (call_caller _ _ _ _ u) in Hc by done.
    destruct (update_effect Transaction rt p u id o db Ho Hid Hacc)
      as (o' & Hk & [Hc'|(db'' & Hc' & Hs)] & _);
      change (call (update_of Transaction)) with (call UpdateTransaction) in Hc';
      rewrite Hc' in Hc; simplify_eq.
    destruct Hacc as [i Hi]. unfold UpdateTransactionInput.schema in Hi. schema_fields Hi.
    match goal with H : z.optional (z.positive _) _ = Some _ |- _ =>
      rewrite Hv in H; unfold z.optional in H; apply fmap_Some in H as (q & Hq & _);
      apply positive_accepts in Hq as [? ?] end.
    simplify_eq. exists q, u, id, o'. repeat split; try done.
    rewrite Hk. unfold updated_field. rewrite Hv. done.
Qed.

(** ** Worked requests

    Each statement below instantiates one of the theorems above on the
    databases [archived_cash] and [ledger]. *)

Lemma pk_unique_archived_cash : pk_unique archived_cash.
Proof. repeat split; simpl; repeat constructor; set_solver. Qed.

Lemma owned_archived_cash : owned Account "a1" "alice" archived_cash.
Proof. eexists. split; [by apply list_elem_of_singleton|done]. Qed.

Lemma cross_owner_access_not_found_witness :
  getAccountForUser "a1" "bob" archived_cash = (Returned None, archived_cash)
  ∧ call ArchiveAccount (node "" 40) {[ "id" := JStr "a1" ]} (signed_in "bob") archived_cash
    = (Thrown (not_found Account), archived_cash).
Proof.
  destruct (cross_owner_access_not_found archived_cash Account "a1" "alice" "bob")
    as (Hlookup & Hcall & _).
  - exact pk_unique_archived_cash.
  - exact owned_archived_cash.
  - discriminate.
  - split; [exact Hlookup|].
    apply Hcall; [reflexivity|reflexivity|]. eexists. reflexivity.
Defined.

Lemma failure_leaves_state_unchanged_witness :
  (serve {| action := ArchiveAccount; runtime := node "" 40;
            payload := {[ "id" := JStr "a1" ]}; context := signed_in "bob" |}
         archived_cash).2 = archived_cash.
Proof.
  apply (failure_leaves_state_unchanged
           {| action := ArchiveAccount; runtime := node "" 40;
              payload := {[ "id" := JStr "a1" ]}; context := signed_in "bob" |}
           archived_cash _ (not_found Account)).
  reflexivity.
Defined.

Lemma update_changes_exactly_supplied_fields_witness :
  ∃ resp db' o',
    call UpdateTransaction (node "" 130)
      (<["amount" := JNum (Qc_of_Z 9)]>
         (<["accountId" := JStr "a1"]> {[ "id" := JStr "t1" ]}))
      (signed_in "alice") ledger = (Returned resp, db')
    ∧ stored Transaction "t1" "alice" db' = Some o'
    ∧ o' !! "amount" = Some (VNum (Qc_of_Z 9))
    ∧ o' !! "type" = Some (VStr "expense")
    ∧ o' !! "updatedAt" = Some (VDate 130).
Proof.
  destruct (update_changes_exactly_supplied_fields Transaction (node "" 130)
              (<["amount" := JNum (Qc_of_Z 9)]>
                 (<["accountId" := JStr "a1"]> {[ "id" := JStr "t1" ]}))
              "alice" "t1" (Transactions.to_obj (expense "t1" "alice" 5)) ledger)
    as (resp & db' & o' & Hc & Hs & Hk & _).
  - reflexivity.
  - reflexivity.
  - eexists. reflexivity.
  - intros _. split.
    + right. exists "a1". split; [reflexivity|]. by apply list_elem_of_singleton.
    + left. reflexivity.
  - exists resp, db', o'. split; [exact Hc|]. split; [exact Hs|].
    rewrite !Hk. repeat split; reflexivity.
Defined.

Lemma archived_until_update_clears_flag_witness :
  archived Account "a1"
    (serve_all [ {| action := ArchiveAccount; runtime := node "" 40;
                    payload := {[ "id" := JStr "a1" ]}; context := signed_in "alice" |};
                 {| action := UpdateAccount; runtime := node "" 50;
                    payload := <["name" := JStr "Wallet"]> {[ "id" := JStr "a1" ]};
                    context := signed_in "alice" |} ]
       archived_cash).
Proof.
  apply archived_until_update_clears_flag.
  - exact pk_unique_archived_cash.
  - eexists. split; [by apply list_elem_of_singleton|done].
  - repeat constructor; intros (H1 & H2 & H3); discriminate.
Defined.

Lemma list_shows_owner_rows_by_archive_flag_witness :
  call ListAccounts (node "" 40) ∅ (signed_in "alice") archived_cash
  = (Returned {| success := true; data := Some (listing [] 0) |}, archived_cash).
Proof.
  destruct (list_shows_owner_rows_by_archive_flag (node "" 40) ∅ "alice" false
              archived_cash) as [Hacc _].
  - left. split; reflexivity.
  - exact Hacc.
Defined.

Lemma listTransactions_page_and_totals_witness :
  call ListTransactions (node "" 40) second_page (signed_in "alice") ledger
  = (Returned {| success := true;
                 data := Some (paged [Transactions.to_obj (expense "t2" "alice" 6)] 1
                                     (Qc_of_Z 2) (Qc_of_Z 1)) |}, ledger).
Proof.
  destruct (listTransactions_page_and_totals (node "" 40) second_page "alice" ledger
              None None None (Some 2) (Some 1)) as [Hpage _].
  - repeat split; try reflexivity; intros n H; inversion H; lia.
  - exact Hpage.
Defined.

Lemma amount_must_be_positive_witness :
  call CreateTransaction (node "t9" 40)
    (<["type" := JStr "expense"]> {[ "amount" := JNum (Qc_of_Z 0) ]})
    (signed_in "alice") ledger
  = (Thrown ActionInputError, ledger).
Proof.
  destruct (amount_must_be_positive (node "t9" 40)
              (<["type" := JStr "expense"]> {[ "amount" := JNum (Qc_of_Z 0) ]})
              (signed_in "alice") ledger) as (Hreject & _).
  destruct (Hreject (Qc_of_Z 0)) as [Hcreate _].
  - reflexivity.
  - discriminate.
  - exact Hcreate.
Defined.

Lemma archive_sets_flag_and_is_idempotent_witness :
  ∃ resp db' o',
    call ArchiveAccount (node "" 40) {[ "id" := JStr "a1" ]} (signed_in "alice")
      archived_cash = (Returned resp, db')
    ∧ stored Account "a1" "alice" db' = Some o'
    ∧ o' !! "isArchived" = Some (VBool true)
    ∧ (call ArchiveAccount (node "" 50) {[ "id" := JStr "a1" ]} (signed_in "alice") db').2
      = (call ArchiveAccount (node "" 50) {[ "id" := JStr "a1" ]} (signed_in "alice")
           archived_cash).2.
Proof.
  destruct (archive_sets_flag_and_is_idempotent ArchiveAccount Account
              (node "" 40) (node "" 50) {[ "id" := JStr "a1" ]} "alice" "a1"
              (Accounts.to_obj
                 {| Accounts.id := "a1"; Accounts.userId := "alice";
                    Accounts.name := "Cash"; Accounts.type := None;
                    Accounts.currency := None; Accounts.startingBalance := None;
                    Accounts.isArchived := true; Accounts.createdAt := 10;
                    Accounts.updatedAt := 20 |})
              archived_cash)
    as (resp & db' & o' & Hc & Hs & Ho & resp2 & db'' & Hc2 & _ & Hsame).
  - left. reflexivity.
  - reflexivity.
  - reflexivity.
  - reflexivity.
  - exists resp, db', o'. split; [exact Hc|]. split; [exact Hs|]. split.
    + rewrite Ho. reflexivity.
    + rewrite Hc2. exact Hsame.
Defined.

Lemma update_response_is_persisted_row_witness :
  ∃ o',
    (call UpdateAccount (node "" 30)
       (<["name" := JStr "Wallet"]> {[ "id" := JStr "a1" ]}) (signed_in "alice")
       archived_cash).1
    = Returned {| success := true; data := Some (entity "account" o') |}
    ∧ stored Account "a1" "alice"
        (call UpdateAccount (node "" 30)
           (<["name" := JStr "Wallet"]> {[ "id" := JStr "a1" ]}) (signed_in "alice")
           archived_cash).2 = Some o'.
Proof.
  destruct (update_response_is_persisted_row Account (node "" 30)
              (<["name" := JStr "Wallet"]> {[ "id" := JStr "a1" ]}) (signed_in "alice")
              archived_cash
              {| success := true;
                 data := Some (entity "account"
                   (<["updatedAt" := VDate 30]>
                      (<["name" := VStr "Wallet"]>
                         (Accounts.to_obj
                            {| Accounts.id := "a1"; Accounts.userId := "alice";
                               Accounts.name := "Cash"; Accounts.type := None;
                               Accounts.currency := None;
                               Accounts.startingBalance := None;
                               Accounts.isArchived := true; Accounts.createdAt := 10;
                               Accounts.updatedAt := 20 |})))) |}
              (call UpdateAccount (node "" 30)
                 (<["name" := JStr "Wallet"]> {[ "id" := JStr "a1" ]}) (signed_in "alice")
                 archived_cash).2)
    as (u & id & o' & Hu & Hid & Hresp & Hs).
  - reflexivity.
  - exists o'. injection Hu as <-.
    assert (id = "a1") as -> by (vm_compute in Hid; congruence).
    injection Hresp as <-. split; [reflexivity|exact Hs].
Defined.

(** The end-to-end example of the specification: an account, then an
    expense on it whose date defaults to the creation time, then the list of
    the transactions of that account. *)
Example create_then_list :
  (serve {| action := ListTransactions; runtime := node "" 30;
            payload := {[ "accountId" := JStr "a1" ]}; context := signed_in "alice" |}
     (serve_all
        [ {| action := CreateAccount; runtime := node "a1" 10;
             payload := {[ "name" := JStr "Cash" ]}; context := signed_in "alice" |};
          {| action := CreateTransaction; runtime := node "t1" 20;
             payload := <["type" := JStr "expense"]>
                          (<["amount" := JNum (Qc_of_Z 50)]>
                             {[ "accountId" := JStr "a1" ]});
             context := signed_in "alice" |} ]
        (empty_db true))).1
  = Returned {|
      success := true;
      data := Some (paged
        [ Transactions.to_obj {|
            Transactions.id := "t1"; Transactions.userId := "alice";
            Transactions.accountId := Some "a1"; Transactions.categoryId := None;
            Transactions.type := "expense"; Transactions.amount := Qc_of_Z 50;
            Transactions.currency := None; Transactions.transactionDate := 20;
            Transactions.description := None; Transactions.transferAccountId := None;
            Transactions.createdAt := 20; Transactions.updatedAt := 20 |} ]
        1 (Qc_of_Z 1) (Qc_of_Z 20)) |}.
Proof. vm_compute. reflexivity. Qed.

(** With enforced references, an expense on an account that does not exist
    is rejected by the storage and leaves no row. *)
Example dangling_account_is_rejected :
  serve {| action := CreateTransaction; runtime := node "t1" 20;
           payload := <["type" := JStr "expense"]>
                        (<["amount" := JNum (Qc_of_Z 50)]>
                           {[ "accountId" := JStr "nowhere" ]});
           context := signed_in "alice" |}
        (empty_db true)
  = (Thrown SqlError, empty_db true).
Proof. vm_compute. reflexivity. Qed.

(** * Further properties

    Properties of the handlers and of the tables beyond the statements of the
    specification. *)

Lemma not_accepted a rt p ctx db :
  ¬ accepts a rt p → call a rt p ctx db = (Thrown ActionInputError, db).
Proof.
  intros Hn. destruct a; simpl in *; act_unfold;
    match goal with |- context [match ?s with Some _ => _ | None => _ end] =>
      destruct s; [destruct Hn; by eexists|done] end.
Qed.

(** X1. Validation comes before authentication.  A payload that the schema
    of its action rejects fails with the input error whoever the caller is,
    identified or not; a payload the schema accepts, sent by a caller with no
    user, fails with [UNAUTHORIZED] and the fixed message of [requireUser].
    Both leave the database as it was. *)
Theorem validation_then_authentication
    (a : ActionName) (rt : Runtime) (p : gmap string Json) (ctx : Context) (db : Db) :
  (¬ accepts a rt p → call a rt p ctx db = (Thrown ActionInputError, db))
  ∧ (accepts a rt p → caller ctx = None → call a rt p ctx db = (Thrown unauthorized, db)).
Proof.
  split; [apply not_accepted|].
  - intros Ha Hc. destruct ctx as [[[[[uid]|]]|]]; [done| |];
      destruct a; simpl in *; destruct Ha as [i Hi]; act_unfold; by rewrite Hi.
Qed.

Lemma filter_update_other {R} (P w : R → bool) (s : R → R) (l : list R) :
  (∀ x, w x = true → P x = false ∧ P (s x) = false) →
  List.filter P (map (λ x, if w x then s x else x) l) = List.filter P l.
Proof.
  intros H. induction l as [|x l IH]; simpl; [done|].
  destruct (w x) eqn:E.
  - destruct (H x E) as [-> ->]. done.
  - by rewrite IH.
Qed.

Lemma filter_delete_other {R} (P w : R → bool) (l : list R) :
  (∀ x, w x = true → P x = false) →
  List.filter P (List.filter (λ x, negb (w x)) l) = List.filter P l.
Proof.
  intros H. induction l as [|x l IH]; simpl; [done|].
  destruct (w x) eqn:E; simpl.
  - by rewrite (H x E).
  - by rewrite IH.
Qed.

Lemma filter_insert_other {R} (P : R → bool) (v : R) (l : list R) :
  P v = false → List.filter P (l ++ [v])%list = List.filter P l.
Proof. intros H. rewrite List.filter_app. simpl. rewrite H. apply app_nil_r. Qed.

Lemma scoped_other_owner {R} (key owner : R → string) id u A (x : R) :
  u ≠ A → sql_and [sql_eq key id; sql_eq owner u] x = true →
  sql_eq owner A x = false.
Proof.
  intros Hne H. apply (scoped_true key owner) in H as [_ H].
  unfold sql_eq. apply bool_decide_eq_false. congruence.
Qed.

(** X2. No request touches the rows of somebody else.  Whatever a request
    is and whatever it does, the rows of every table that belong to a user
    other than its caller are the same, in the same order, after it. *)
Theorem request_leaves_other_owners_rows
    (q : Request) (e : Entity) (A : string) (db : Db) :
  caller (context q) ≠ Some A →
  rows_owned e A (serve q db).2 = rows_owned e A db.
Proof.
  intros Hc. destruct q as [a rt p ctx]. unfold caller in Hc. simpl in Hc.
  destruct ctx as [[[[[uid]|]]|]]; simpl in Hc;
    [assert (uid ≠ A) by congruence| |];
    destruct e, a; act_unfold; simpl;
    repeat (case_match; simplify_eq/=); try done; unfold rows_owned; simpl; f_equal.
  all: try (apply filter_insert_other; unfold sql_eq; simpl;
            apply bool_decide_eq_false; congruence).
  all: try (apply filter_update_other; intros x Hx;
            match goal with Hne : ?b ≠ ?B |- _ =>
              pose proof (scoped_other_owner _ _ _ b B x Hne Hx) as Hf end;
            split; exact Hf).
  all: try (apply filter_delete_other; intros x Hx;
            eapply scoped_other_owner; [|exact Hx]; congruence).
Qed.

(** X3. An action writes at most its own table.  The account actions leave
    categories and transactions as they were, the category actions leave
    accounts and transactions, the transaction actions leave accounts and
    categories; no action changes whether the storage enforces references. *)
Theorem action_changes_only_its_table (q : Request) (e : Entity) (db : Db) :
  e ≠ table_of (action q) →
  untouched e db (serve q db).2
  ∧ foreign_keys (serve q db).2 = foreign_keys db.
Proof.
  intros He. destruct q as [a rt p ctx].
  destruct ctx as [[[[[uid]|]]|]]; destruct e, a; simpl in He; try done;
    act_unfold; simpl; repeat (case_match; simplify_eq/=); done.
Qed.

Lemma filter_elem_true {R} (w : R → bool) (l : list R) r :
  r ∈ List.filter w l → w r = true.
Proof. intros H. apply list_elem_of_In, filter_In in H. tauto. Qed.

Lemma sql_and_head {R} (c : R → bool) cs r : sql_and (c :: cs) r = true → c r = true.
Proof. unfold sql_and. simpl. rewrite andb_true_iff. tauto. Qed.

Lemma obj_userId_Accounts r :
  Accounts.to_obj r !! "userId" = Some (VStr (Accounts.userId r)).
Proof. reflexivity. Qed.

Lemma obj_userId_Categories r :
  Categories.to_obj r !! "userId" = Some (VStr (Categories.userId r)).
Proof. reflexivity. Qed.

Lemma obj_userId_Transactions r :
  Transactions.to_obj r !! "userId" = Some (VStr (Transactions.userId r)).
Proof. reflexivity. Qed.

(** X4. The three list actions never write, and every item they return
    carries the [userId] of the caller, whatever filters the payload has. *)
Theorem list_is_read_only_and_scoped
    (a : ActionName) (rt : Runtime) (p : gmap string Json) (ctx : Context) (db : Db) :
  is_list a →
  (call a rt p ctx db).2 = db
  ∧ (∀ resp db', call a rt p ctx db = (Returned resp, db') →
       ∃ u, caller ctx = Some u
            ∧ ∀ item, item ∈ items_of resp → item !! "userId" = Some (VStr u)).
Proof.
  intros [->|[->| ->]]; destruct ctx as [[[[[uid]|]]|]]; act_unfold; simpl;
    repeat (case_match; simplify_eq/=); (split; [done|]); intros resp db' Hret;
    simplify_eq/=; exists uid; (split; [done|]); unfold items_of; simpl;
    intros item Hin; apply list_elem_of_fmap in Hin as (r & -> & Hin).
  - apply filter_elem_true in Hin. unfold sql_eq in Hin.
    apply bool_decide_eq_true in Hin. by rewrite obj_userId_Accounts, Hin.
  - apply filter_elem_true, sql_and_head in Hin. unfold sql_eq in Hin.
    apply bool_decide_eq_true in Hin. by rewrite obj_userId_Accounts, Hin.
  - apply filter_elem_true in Hin. unfold sql_eq in Hin.
    apply bool_decide_eq_true in Hin. by rewrite obj_userId_Categories, Hin.
  - apply filter_elem_true, sql_and_head in Hin. unfold sql_eq in Hin.
    apply bool_decide_eq_true in Hin. by rewrite obj_userId_Categories, Hin.
  - apply subseteq_take, subseteq_drop, filter_elem_true in Hin.
    apply whereClause_matches in Hin as [Hin _].
    by rewrite obj_userId_Transactions, Hin.
Qed.

(** X5. In every database reached from the empty one by any sequence of
    requests, each table holds at most one row per [id]. *)
Theorem reachable_databases_have_unique_ids (qs : list Request) (fk : bool) :
  pk_unique (serve_all qs (empty_db fk)).
Proof.
  apply pk_unique_serve_all. repeat split; simpl; constructor.
Qed.

Lemma head_filter_is_Some {R} (w : R → bool) (l : list R) r :
  r ∈ l → w r = true → is_Some (head (List.filter w l)).
Proof.
  intros Hin Hw. destruct (List.filter w l) as [|x l'] eqn:E; [|by eexists].
  assert (r ∈ List.filter w l) as Hr
    by (apply list_elem_of_In, filter_In; split; [by apply list_elem_of_In|done]).
  rewrite E in Hr. by apply elem_of_nil in Hr.
Qed.

Lemma obj_id_Accounts r : Accounts.to_obj r !! "id" = Some (VStr (Accounts.id r)).
Proof. reflexivity. Qed.
Lemma obj_id_Categories r : Categories.to_obj r !! "id" = Some (VStr (Categories.id r)).
Proof. reflexivity. Qed.
Lemma obj_id_Transactions r :
  Transactions.to_obj r !! "id" = Some (VStr (Transactions.id r)).
Proof. reflexivity. Qed.

Lemma stored_sound e id u db o :
  stored e id u db = Some o →
  o !! "id" = Some (VStr id) ∧ o !! "userId" = Some (VStr u) ∧ o ∈ rows_owned e u db.
Proof.
  intros Ho. destruct e; unfold stored, found in Ho;
    [rewrite getAccountForUser_eq in Ho|rewrite getCategoryForUser_eq in Ho
    |rewrite getTransactionForUser_eq in Ho]; simpl in Ho;
    apply fmap_Some in Ho as (r & Hr & ->);
    pose proof (head_filter_true _ _ _ Hr) as [Hid Hu]%scoped_true;
    apply head_Some_elem_of, list_elem_of_In, filter_In, proj1 in Hr;
    [rewrite obj_id_Accounts, obj_userId_Accounts
    |rewrite obj_id_Categories, obj_userId_Categories
    |rewrite obj_id_Transactions, obj_userId_Transactions];
    rewrite Hid, Hu; (split; [done|]); (split; [done|]);
    unfold rows_owned; apply list_elem_of_fmap_2, list_elem_of_In, filter_In;
    (split; [done|]); unfold sql_eq; by apply bool_decide_eq_true.
Qed.

(** X6. The scoped lookups find exactly the rows of the caller.  A row the
    lookup of [id] for [u] returns has that [id], belongs to [u] and is one of
    the rows of [u] in the table; and whenever the table holds a row with that
    [id] owned by [u], the lookup returns a row. *)
Theorem lookup_finds_exactly_owned_rows (e : Entity) (id u : string) (db : Db) :
  (∀ o, stored e id u db = Some o →
     o !! "id" = Some (VStr id) ∧ o !! "userId" = Some (VStr u)
     ∧ o ∈ rows_owned e u db)
  ∧ (owned e id u db → is_Some (stored e id u db)).
Proof.
  split; [intros o; apply stored_sound|].
  intros Ho. destruct e; simpl in Ho; destruct Ho as (r & Hin & Hid & Hu);
    unfold stored, found;
    [rewrite getAccountForUser_eq|rewrite getCategoryForUser_eq
    |rewrite getTransactionForUser_eq]; simpl;
    apply fmap_is_Some, (head_filter_is_Some _ _ r); try done;
    by apply scoped_true.
Qed.

Lemma filter_negb_scoped {R} (key owner : R → string) id u (l : list R) :
  List.filter (scoped key owner id u)
    (List.filter (λ r, negb (scoped key owner id u r)) l) = [].
Proof.
  induction l as [|x l IH]; simpl; [done|].
  destruct (scoped key owner id u x) eqn:E; simpl; [done|]. by rewrite E.
Qed.

(** X7. [deleteTransaction] on a transaction of the caller returns
    [{ success: true }] with no data, removes the rows with that [id] and
    owner and no other, leaves accounts and categories alone, and the lookup
    of the [id] then finds nothing: a second delete of the same [id] fails
    with [NOT_FOUND]. *)
Theorem delete_removes_exactly_that_row
    (rt rt2 : Runtime) (p : gmap string Json) (u id : string) (o : Obj) (db : Db) :
  stored Transaction id u db = Some o → p !! "id" = Some (JStr id) →
  ∃ db',
    call DeleteTransaction rt p (signed_in u) db
    = (Returned {| success := true; data := None |}, db')
    ∧ stored Transaction id u db' = None
    ∧ transactions db'
      = filter (λ r, ¬ (Transactions.id r = id ∧ Transactions.userId r = u))
          (transactions db)
    ∧ accounts db' = accounts db
    ∧ categories db' = categories db
    ∧ call DeleteTransaction rt2 p (signed_in u) db'
      = (Thrown (not_found Transaction), db').
Proof.
  intros Hst Hid.
  assert (∀ rt', IdInput.schema rt' p = Some {| IdInput.id := id |}) as Hi
    by (intros; unfold IdInput.schema; by rewrite Hid).
  unfold stored, found in Hst. rewrite getTransactionForUser_eq in Hst. simpl in Hst.
  apply fmap_Some in Hst as (r & Hr & ->). unfold scoped in Hr.
  eexists. split; [act_unfold; rewrite Hi; simpl; rewrite Hr; reflexivity|].
  simpl.
  assert (stored Transaction id u
            {| accounts := accounts db; categories := categories db;
               transactions :=
                 List.filter (λ r0, negb (sql_and [sql_eq Transactions.id id;
                                                   sql_eq Transactions.userId u] r0))
                   (transactions db);
               foreign_keys := foreign_keys db |} = None) as Hgone.
  { unfold stored, found. rewrite getTransactionForUser_eq. simpl.
    by rewrite (filter_negb_scoped Transactions.id Transactions.userId). }
  split; [exact Hgone|]. split.
  { apply filter_bool_Prop. intros x.
    rewrite negb_true_iff, <- not_true_iff_false.
    apply not_iff_compat, (scoped_true Transactions.id Transactions.userId). }
  split; [done|]. split; [done|].
  apply (target_no_match DeleteTransaction Transaction rt2 p u id); try done.
  by eexists.
Qed.

Lemma required_supplied {A} (val : z.Validator A) inj f v a :
  reads val inj f → val None = None → val v = Some a →
  inj a = default VNull (f <$> v).
Proof.
  intros Hr Hn H. destruct v as [j|]; [|congruence]. simpl. by apply Hr.
Qed.

Lemma optional_default {A} (inj : A → Value) (f : Json → Value) (x : option A) v :
  inj <$> x = f <$> v → of_opt VNull inj x = default VNull (f <$> v).
Proof. intros <-. by destruct x. Qed.

Lemma optional_date (x : option Z) (g : Json → Value) v (d : Z) :
  VDate <$> x = g <$> v → VDate (nullish x d) = default (VDate d) (g <$> v).
Proof. intros <-. by destruct x. Qed.

(** Rewrites the parse of every required field into what the payload
    supplies for it. *)
Ltac required_fields :=
  repeat match goal with
         | H : z.min _ _ _ = Some _ |- _ =>
             eapply (required_supplied _ VStr json_value) in H;
             [|solve [eauto with reads]|reflexivity]
         | H : z.enum _ _ = Some _ |- _ =>
             eapply (required_supplied _ VStr json_value) in H;
             [|solve [eauto with reads]|reflexivity]
         | H : z.positive _ _ = Some _ |- _ =>
             eapply (required_supplied _ VNum json_value) in H;
             [|solve [eauto with reads]|reflexivity]
         end.

Ltac optional_defaults :=
  repeat match goal with
         | H : VDate <$> _ = _ <$> _ |- _ => apply (optional_date _ _ _ _) in H
         | H : _ <$> _ = _ <$> _ |- _ => apply optional_default in H
         end.

Lemma CreateAccount_fields rt p u i k :
  CreateAccountInput.schema rt p = Some i →
  Accounts.to_obj {|
    Accounts.id := randomUUID rt; Accounts.userId := u;
    Accounts.name := CreateAccountInput.name i;
    Accounts.type := CreateAccountInput.type i;
    Accounts.currency := CreateAccountInput.currency i;
    Accounts.startingBalance := CreateAccountInput.startingBalance i;
    Accounts.isArchived := false;
    Accounts.createdAt := clock rt 0; Accounts.updatedAt := clock rt 0 |} !! k
  = created_field Account rt p u k.
Proof.
  intros Hi. unfold CreateAccountInput.schema in Hi. schema_fields Hi.
  optional_fields. required_fields. optional_defaults.
  unfold Accounts.to_obj, Accounts.obj, created_field. simpl.
  obj_lookup. by_key; try (f_equal; done); try (exfalso; set_solver); try naive_solver.
Qed.

Lemma CreateCategory_fields rt p u i k :
  CreateCategoryInput.schema rt p = Some i →
  Categories.to_obj {|
    Categories.id := randomUUID rt; Categories.userId := u;
    Categories.name := CreateCategoryInput.name i;
    Categories.type := CreateCategoryInput.type i;
    Categories.icon := CreateCategoryInput.icon i;
    Categories.parentCategoryId := CreateCategoryInput.parentCategoryId i;
    Categories.sortOrder := CreateCategoryInput.sortOrder i;
    Categories.isArchived := false;
    Categories.createdAt := clock rt 0; Categories.updatedAt := clock rt 0 |} !! k
  = created_field Category rt p u k.
Proof.
  intros Hi. unfold CreateCategoryInput.schema in Hi. schema_fields Hi.
  optional_fields. required_fields. optional_defaults.
  unfold Categories.to_obj, Categories.obj, created_field. simpl.
  obj_lookup. by_key; try (f_equal; done); try (exfalso; set_solver); try naive_solver.
Qed.

Lemma CreateTransaction_fields rt p u i k :
  CreateTransactionInput.schema rt p = Some i →
  Transactions.to_obj {|
    Transactions.id := randomUUID rt; Transactions.userId := u;
    Transactions.accountId := CreateTransactionInput.accountId i;
    Transactions.categoryId := CreateTransactionInput.categoryId i;
    Transactions.type := CreateTransactionInput.type i;
    Transactions.amount := CreateTransactionInput.amount i;
    Transactions.currency := CreateTransactionInput.currency i;
    Transactions.transactionDate :=
      nullish (CreateTransactionInput.transactionDate i) (clock rt 1);
    Transactions.description := CreateTransactionInput.description i;
    Transactions.transferAccountId := CreateTransactionInput.transferAccountId i;
    Transactions.createdAt := clock rt 0; Transactions.updatedAt := clock rt 0 |} !! k
  = created_field Transaction rt p u k.
Proof.
  intros Hi. unfold CreateTransactionInput.schema in Hi. schema_fields Hi.
  optional_fields. required_fields.
  repeat match goal with
         | H : VDate <$> _ = _ <$> _ |- _ =>
             apply (optional_date _ _ _ (clock rt 1)) in H
         | H : _ <$> _ = _ <$> _ |- _ => apply optional_default in H
         end.
  unfold Transactions.to_obj, Transactions.obj, created_field. simpl.
  obj_lookup. by_key; try (f_equal; done); try (exfalso; set_solver); try naive_solver.
Qed.

Lemma of_opt_undefined {A} (inj : A → Value) (x : option A) :
  (∀ a, inj a ≠ VNull) →
  null_to_undefined (of_opt VNull inj x) = of_opt VUndefined inj x.
Proof. intros H. destruct x as [a|]; simpl; [|done]. specialize (H a). by destruct (inj a). Qed.

Lemma Accounts_literal r : Accounts.obj VUndefined r = undefined_for_null (Accounts.to_obj r).
Proof.
  unfold undefined_for_null, Accounts.to_obj, Accounts.obj.
  rewrite !fmap_insert, fmap_empty, !of_opt_undefined by done. done.
Qed.

Lemma Categories_literal r :
  Categories.obj VUndefined r = undefined_for_null (Categories.to_obj r).
Proof.
  unfold undefined_for_null, Categories.to_obj, Categories.obj.
  rewrite !fmap_insert, fmap_empty, !of_opt_undefined by done. done.
Qed.

Lemma Transactions_literal r :
  Transactions.obj VUndefined r = undefined_for_null (Transactions.to_obj r).
Proof.
  unfold undefined_for_null, Transactions.to_obj, Transactions.obj.
  rewrite !fmap_insert, fmap_empty, !of_opt_undefined by done. done.
Qed.

Lemma existsb_key_absent {R} (key : R → string) (k : string) (l : list R) :
  k ∉ key <$> l → existsb (λ r, bool_decide (key r = k)) l = false.
Proof.
  intros H. apply not_true_iff_false. intros (x & Hin & Hx)%existsb_exists.
  apply bool_decide_eq_true in Hx. apply H, list_elem_of_fmap.
  exists x. split; [done|by apply list_elem_of_In].
Qed.

Lemma head_filter_appended {R} (key owner : R → string) (l : list R) (v : R) :
  key v ∉ key <$> l →
  head (List.filter (scoped key owner (key v) (owner v)) (l ++ [v])%list) = Some v.
Proof.
  intros H. rewrite List.filter_app, filter_scoped_absent by done. simpl.
  assert (scoped key owner (key v) (owner v) v = true) as -> by (by apply scoped_true).
  done.
Qed.

(** X8. A create followed by the lookup of the new id.  With a valid
    payload, a UUID not yet used in the table and, where the storage enforces
    them, resolvable references, the create appends exactly one row to its
    table; the scoped lookup of the new id for the caller reads that row,
    whose columns are: the new id, the caller, the creation time for
    [createdAt] and [updatedAt], [isArchived] false, the supplied
    [transactionDate] or else a later reading of the clock, and for every
    other column the supplied value or else NULL.  The response carries the
    same object with [undefined] where the row has NULL. *)
Theorem create_then_lookup
    (e : Entity) (rt : Runtime) (p : gmap string Json) (u : string) (db : Db) :
  accepts (create_of e) rt p →
  randomUUID rt ∉ ids_of e db →
  references_hold e (created_field e rt p u) db →
  ∃ o db',
    call (create_of e) rt p (signed_in u) db
    = (Returned {| success := true;
                   data := Some (entity (entity_key e) (undefined_for_null o)) |}, db')
    ∧ stored e (randomUUID rt) u db' = Some o
    ∧ (∀ k, o !! k = created_field e rt p u k)
    ∧ all_rows e db' = (all_rows e db ++ [o])%list.
Proof.
  intros Hacc Hfresh Href. destruct e; destruct Hacc as [i Hi]; simpl in *.
  - eexists (Accounts.to_obj _), _. split; [|split; [|split]].
    + act_unfold. rewrite Hi. simpl. rewrite existsb_key_absent by done.
      rewrite Accounts_literal. reflexivity.
    + unfold stored, found. rewrite getAccountForUser_eq. simpl.
      match goal with |- context [(_ ++ [?v])%list] =>
        by rewrite (head_filter_appended Accounts.id Accounts.userId _ v) end.
    + intros k. by apply CreateAccount_fields.
    + exact (fmap_app _ _ _).
  - eexists (Categories.to_obj _), _. split; [|split; [|split]].
    + act_unfold. rewrite Hi. simpl. rewrite existsb_key_absent by done.
      rewrite Categories_literal. reflexivity.
    + unfold stored, found. rewrite getCategoryForUser_eq. simpl.
      match goal with |- context [(_ ++ [?v])%list] =>
        by rewrite (head_filter_appended Categories.id Categories.userId _ v) end.
    + intros k. by apply CreateCategory_fields.
    + exact (fmap_app _ _ _).
  - assert (dangling TransactionsTable
              [ {| Transactions.id := randomUUID rt; Transactions.userId := u;
                   Transactions.accountId := CreateTransactionInput.accountId i;
                   Transactions.categoryId := CreateTransactionInput.categoryId i;
                   Transactions.type := CreateTransactionInput.type i;
                   Transactions.amount := CreateTransactionInput.amount i;
                   Transactions.currency := CreateTransactionInput.currency i;
                   Transactions.transactionDate :=
                     nullish (CreateTransactionInput.transactionDate i) (clock rt 1);
                   Transactions.description := CreateTransactionInput.description i;
                   Transactions.transferAccountId :=
                     CreateTransactionInput.transferAccountId i;
                   Transactions.createdAt := clock rt 0;
                   Transactions.updatedAt := clock rt 0 |} ] db = false) as Hd.
    { unfold dangling. simpl.
      destruct (foreign_keys db); [|by rewrite andb_false_r].
      destruct (Href eq_refl) as [Ha Hc].
      rewrite <- (CreateTransaction_fields rt p u i "accountId" Hi) in Ha.
      rewrite <- (CreateTransaction_fields rt p u i "categoryId" Hi) in Hc.
      unfold Transactions.to_obj, Transactions.obj in Ha, Hc.
      rewrite !lookup_insert in Ha, Hc. simpl in Ha, Hc.
      apply cell_resolves_of_opt in Ha, Hc. by rewrite Ha, Hc. }
    eexists (Transactions.to_obj _), _. split; [|split; [|split]].
    + unfold call, create_of, server.createTransaction, defineAction, requireUser,
        db_insert, throw, mbind, mret, Act_bind, Act_ret, bind, ret.
      rewrite Hi. simpl. rewrite existsb_key_absent by done. rewrite Hd.
      rewrite Transactions_literal. reflexivity.
    + unfold stored, found. rewrite getTransactionForUser_eq. simpl.
      match goal with |- context [(_ ++ [?v])%list] =>
        by rewrite (head_filter_appended Transactions.id Transactions.userId _ v) end.
    + intros k. by apply CreateTransaction_fields.
    + exact (fmap_app _ _ _).
Qed.

Lemma IdInput_id rt p i : IdInput.schema rt p = Some i → p !! "id" = Some (JStr (IdInput.id i)).
Proof. intros Hi. unfold IdInput.schema in Hi. schema_fields Hi. by apply z_string_Some. Qed.

Lemma kept_row_member {R} (w : R → bool) (l : list R) r :
  r ∈ l → w r = false → r ∈ List.filter (λ x, negb (w x)) l.
Proof.
  intros Hin Hw. apply list_elem_of_In, filter_In.
  split; [by apply list_elem_of_In|by rewrite Hw].
Qed.

(** One goal of [has_row_step]: the row [r] stays, is followed by a new
    row, is rewritten with the same id, owner and creation time, or survives
    a delete that names another row. *)
Ltac has_row_case r :=
  first
  [ by exists r
  | by (exists r; split; [|done]; apply elem_of_app; left)
  | solve [ eexists; (split; [by apply updated_row_member|]);
            destruct (sql_and _ r) eqn:E; simpl; done ]
  | exists r; split; [|done]; apply kept_row_member; [done|];
    apply not_true_iff_false; intros E;
    match goal with Hno : ¬ deletes _ _, H : IdInput.schema _ _ = Some _ |- _ =>
      apply Hno; split; [done|]; simpl;
      apply IdInput_id in H; rewrite H;
      apply (scoped_true Transactions.id Transactions.userId) in E as [E _];
      by rewrite E
    end ].

Lemma has_row_step e id owner created q db :
  has_row e id owner created db → (e = Transaction → ¬ deletes id q) →
  has_row e id owner created (serve q db).2.
Proof.
  intros Hrow Hno. destruct q as [a rt p ctx].
  destruct e; destruct Hrow as (r & Hin & Hid & Hr).
  - clear Hno. destruct ctx as [[[[[uid]|]]|]]; destruct a; act_unfold; simpl;
      repeat (case_match; simplify_eq/=); has_row_case r.
  - clear Hno. destruct ctx as [[[[[uid]|]]|]]; destruct a; act_unfold; simpl;
      repeat (case_match; simplify_eq/=); has_row_case r.
  - specialize (Hno eq_refl).
    destruct ctx as [[[[[uid]|]]|]]; destruct a; act_unfold; simpl;
      repeat (case_match; simplify_eq/=); has_row_case r.
Qed.

(** X9. No action rewrites [id], [userId] or [createdAt], and only
    [deleteTransaction] removes rows.  A row with a given id, owner and
    creation time is still there, with the same three values, after any
    sequence of requests; for a transaction, provided none of them is a
    delete naming its id. *)
Theorem rows_keep_id_owner_and_creation_time
    (e : Entity) (id owner : string) (created : Z) (qs : list Request) (db : Db) :
  has_row e id owner created db →
  (e = Transaction → Forall (λ q, ¬ deletes id q) qs) →
  has_row e id owner created (serve_all qs db).
Proof.
  revert db. induction qs as [|q qs IH]; intros db Hrow Hno; [done|].
  simpl. apply IH.
  - apply has_row_step; [done|]. intros He. specialize (Hno He).
    by apply Forall_cons in Hno as [? _].
  - intros He. specialize (Hno He). by apply Forall_cons in Hno as [_ ?].
Qed.

Lemma min1_nonempty v s : z.min 1 z.string v = Some s → s ≠ "".
Proof.
  unfold z.min. intros H. apply bind_Some in H as (x & _ & H).
  case_decide as Hl; simplify_eq. intros ->. simpl in Hl. lia.
Qed.

Lemma enum_member l v s : z.enum l v = Some s → s ∈ l.
Proof. destruct v as [[]|]; simpl; intros H; try done. by case_decide; simplify_eq. Qed.

Lemma optional_inv {A} (val : z.Validator A) v x a :
  z.optional val v = Some x → x = Some a → val v = Some a.
Proof.
  unfold z.optional. destruct v; intros H ->; simplify_eq/=.
  by apply fmap_Some in H as (? & ? & ?); simplify_eq.
Qed.

Lemma Forall_update {R} (P : R → Prop) (w : R → bool) (s : R → R) (l : list R) :
  Forall P l → (∀ x, P x → w x = true → P (s x)) →
  Forall P (map (λ x, if w x then s x else x) l).
Proof.
  intros Hl Hs. induction Hl as [|x l Hx Hl IH]; simpl; constructor; [|done].
  destruct (w x) eqn:E; auto.
Qed.

Lemma Forall_bool_filter {R} (P : R → Prop) (w : R → bool) (l : list R) :
  Forall P l → Forall P (List.filter w l).
Proof.
  intros Hl. induction Hl as [|x l Hx Hl IH]; simpl; [constructor|].
  destruct (w x); [by constructor|done].
Qed.

Lemma Forall_head {R} (P : R → Prop) (w : R → bool) (l : list R) r :
  Forall P l → head (List.filter w l) = Some r → P r.
Proof.
  intros Hl Hr. apply head_Some_elem_of in Hr.
  eapply (proj1 (Forall_forall P _)); [by apply Forall_bool_filter|done].
Qed.

Lemma rows_valid_step q db : rows_valid db → rows_valid (serve q db).2.
Proof.
  intros (Ha & Hc & Ht). destruct q as [a rt p ctx].
  destruct ctx as [[[[[uid]|]]|]]; destruct a; act_unfold; simpl;
    repeat (case_match; simplify_eq/=); try done; unfold rows_valid; simpl;
    (split; [|split]); try done;
    repeat match goal with
    | H : head (List.filter _ (accounts _)) = Some _ |- _ =>
        apply (Forall_head account_ok) in H; [|done]
    | H : head (List.filter _ (categories _)) = Some _ |- _ =>
        apply (Forall_head category_ok) in H; [|done]
    | H : head (List.filter _ (transactions _)) = Some _ |- _ =>
        apply (Forall_head transaction_ok) in H; [|done]
    end;
    match goal with
    | H : _ = Some ?i |- _ =>
        first [ unfold CreateAccountInput.schema in H
              | unfold UpdateAccountInput.schema in H
              | unfold CreateCategoryInput.schema in H
              | unfold UpdateCategoryInput.schema in H
              | unfold CreateTransactionInput.schema in H
              | unfold UpdateTransactionInput.schema in H
              | unfold IdInput.schema in H ];
        schema_fields H
    end.
  all: try (apply Forall_app; split; [done|]; apply Forall_singleton).
  all: try (apply Forall_update; [done|]; intros y Hy _).
  all: try (by apply Forall_bool_filter).
  all: unfold account_ok, category_ok, transaction_ok in *; simpl.
  - by eapply min1_nonempty.
  - destruct x0 as [n|]; simpl; [|done].
    eapply min1_nonempty, optional_inv; eauto.
  - done.
  - split; [by eapply min1_nonempty|]. intros t ->.
    eapply enum_member, optional_inv; eauto.
  - destruct_and!. split.
    + destruct x0 as [n|]; simpl; [|done].
      eapply min1_nonempty, optional_inv; eauto.
    + destruct x1 as [t'|]; simpl; [|done]. intros t [= <-].
      eapply enum_member, optional_inv; eauto.
  - done.
  - split; [by eapply enum_member|].
    match goal with H : z.positive _ _ = Some _ |- _ =>
      by apply positive_accepts in H as [_ ?] end.
  - destruct_and!. split.
    + destruct x2 as [t'|]; simpl; [|done].
      eapply enum_member, optional_inv; eauto.
    + destruct x3 as [q|]; simpl; [|done].
      match goal with H : z.optional (z.positive _) _ = Some _ |- _ =>
        pose proof (optional_inv _ _ _ q H eq_refl) as Hq end.
      by apply positive_accepts in Hq as [_ ?].
Qed.

(** X10. What the schemas check of the input holds of every stored row,
    also after updates: account and category names are not empty, a category
    type is absent or one of the three transaction types, a transaction has
    one of the three types and a strictly positive amount.  If the rows are
    valid before a sequence of requests they are valid after it. *)
Theorem stored_rows_stay_valid (qs : list Request) (db : Db) :
  rows_valid db → rows_valid (serve_all qs db).
Proof.
  revert db. induction qs as [|q qs IH]; intros db H; [done|].
  simpl. apply IH. by apply rows_valid_step.
Qed.

(** The rows [listTransactions] returns for a page request. *)
Lemma listTransactions_rows rt p u db a c t pg ps :
  page_request p a c t pg ps →
  response_items (call ListTransactions rt p (signed_in u) db)
  = Transactions.to_obj
      <$> take (Z.to_nat (default 20 ps))
            (drop (Z.to_nat ((default 1 pg - 1) * default 20 ps))
               (filter (matches u a c t) (transactions db))).
Proof.
  intros Hp. unfold response_items. simpl. act_unfold.
  rewrite (page_request_schema rt p _ _ _ _ _ Hp). simpl.
  rewrite <- Z2Qc_inj_sub, <- Z2Qc_inj_mul, !to_count_Z.
  rewrite (filter_bool_Prop _ (matches u a c t)); [done|].
  intros r. apply (whereClause_matches u
    {| ListTransactionsInput.accountId := a;
       ListTransactionsInput.categoryId := c;
       ListTransactionsInput.type := t;
       ListTransactionsInput.page := Qc_of_Z (default 1 pg);
       ListTransactionsInput.pageSize := Qc_of_Z (default 20 ps) |}).
Qed.

Lemma page_request_numbered p a c t ps (k : nat) :
  page_request p a c t None (Some ps) → (1 ≤ k)%nat →
  page_request (<["page" := JNum (Qc_of_Z (Z.of_nat k))]> p) a c t
    (Some (Z.of_nat k)) (Some ps).
Proof.
  intros (Ha & Hc & Ht & Hty & Hpg & Hps & Hpgpos & Hpspos) Hk.
  repeat split; try done; rewrite ?lookup_insert_ne by done; try done.
  - by rewrite lookup_insert_eq.
  - intros n [= <-]. lia.
Qed.

Lemma page_items_slice rt p u db a c t ps (k : nat) :
  page_request p a c t None (Some ps) → (1 ≤ k)%nat →
  page_items rt p u db k
  = take (Z.to_nat ps)
      (drop ((k - 1) * Z.to_nat ps)
         (Transactions.to_obj <$> filter (matches u a c t) (transactions db))).
Proof.
  intros Hp Hk. unfold page_items.
  rewrite (listTransactions_rows rt _ u db a c t (Some (Z.of_nat k)) (Some ps))
    by (by apply page_request_numbered).
  simpl. rewrite fmap_take, fmap_drop. do 2 f_equal.
  destruct Hp as (_ & _ & _ & _ & _ & _ & _ & Hps). specialize (Hps ps eq_refl).
  rewrite Z2Nat.inj_mul by lia. f_equal. lia.
Qed.

(** X11. The pages of [listTransactions] tile the matching rows.  For
    fixed filters and a page size [ps], no page holds more than [ps] items,
    pages 1 to [n] laid end to end are the first [n * ps] matching rows in
    storage order, and a page that starts at or beyond the end is empty. *)
Theorem pages_tile_the_matching_rows
    (rt : Runtime) (p : gmap string Json) (u : string) (db : Db)
    (a c t : option string) (ps : Z) (n : nat) :
  page_request p a c t None (Some ps) →
  let matching :=
    Transactions.to_obj <$> filter (matches u a c t) (transactions db) in
  (∀ k, 1 ≤ k → length (page_items rt p u db k) ≤ Z.to_nat ps)%nat
  ∧ concat (page_items rt p u db <$> seq 1 n) = take (n * Z.to_nat ps) matching
  ∧ (∀ k, 1 ≤ k → length matching ≤ (k - 1) * Z.to_nat ps →
       page_items rt p u db k = [])%nat.
Proof.
  intros Hp matching. split; [|split].
  - intros k Hk. rewrite (page_items_slice rt p u db a c t ps k) by done.
    rewrite length_take. lia.
  - induction n as [|n IH]; [reflexivity|].
    rewrite seq_S, fmap_app, concat_app, IH. simpl.
    rewrite (page_items_slice rt p u db a c t ps (S n)) by (done || lia).
    rewrite app_nil_r. replace (S n - 1)%nat with n by lia.
    fold matching. rewrite take_take_drop. f_equal. lia.
  - intros k Hk Hlen. rewrite (page_items_slice rt p u db a c t ps k) by done.
    fold matching. rewrite drop_ge by done. apply take_nil.
Qed.

Lemma null_free_opt_key {A} k (f : A → Value) x o :
  (∀ a, f a ≠ VNull) → null_free o → null_free (opt_key k f x o).
Proof.
  intros Hf Ho j v. rewrite lookup_opt_key. case_decide; [|apply Ho].
  destruct x; [|apply Ho]. intros [= <-]. apply Hf.
Qed.

Lemma null_free_id (s : string) : null_free (<["id" := VStr s]> ∅).
Proof.
  intros j v. rewrite lookup_insert. case_decide; [by intros [= <-]|].
  by rewrite lookup_empty.
Qed.

Lemma parsed_update_null_free e rt p :
  accepts (update_of e) rt p →
  ∀ k v, k ∈ mutable e → p !! k = Some v → supplied_value rt k v ≠ VNull.
Proof.
  intros Hacc k v Hk Hv.
  assert (∃ o : Obj, null_free o ∧ o !! k = supplied_value rt k <$> p !! k)
    as (o & Ho & Hok).
  { destruct e; destruct Hacc as [i Hi].
    - exists (UpdateAccountInput.to_obj i). split.
      + unfold UpdateAccountInput.to_obj.
        repeat (apply null_free_opt_key; [done|]). apply null_free_id.
      + rewrite (UpdateAccountInput_parsed rt p i Hi).
        rewrite decide_False by set_solver. by rewrite decide_True.
    - exists (UpdateCategoryInput.to_obj i). split.
      + unfold UpdateCategoryInput.to_obj.
        repeat (apply null_free_opt_key; [done|]). apply null_free_id.
      + rewrite (UpdateCategoryInput_parsed rt p i Hi).
        rewrite decide_False by set_solver. by rewrite decide_True.
    - exists (UpdateTransactionInput.to_obj i). split.
      + unfold UpdateTransactionInput.to_obj.
        repeat (apply null_free_opt_key; [done|]). apply null_free_id.
      + rewrite (UpdateTransactionInput_parsed rt p i Hi).
        rewrite decide_False by set_solver. by rewrite decide_True. }
  rewrite Hv in Hok. by apply (Ho k).
Qed.

(** X12. An update cannot set a column back to NULL.  Every column that is
    NULL in the row after an update that returned was NULL before it; and a
    payload that carries [null] for a mutable column other than
    [transactionDate] is rejected as invalid input. *)
Theorem update_cannot_clear_a_column
    (e : Entity) (rt : Runtime) (p : gmap string Json) (u id : string) (o : Obj) (db : Db) :
  stored e id u db = Some o → p !! "id" = Some (JStr id) →
  (∀ resp db', call (update_of e) rt p (signed_in u) db = (Returned resp, db') →
     ∃ o', stored e id u db' = Some o'
           ∧ ∀ k, o' !! k = Some VNull → o !! k = Some VNull)
  ∧ (∀ k, k ∈ mutable e → k ≠ "transactionDate" → p !! k = Some JNull →
       call (update_of e) rt p (signed_in u) db = (Thrown ActionInputError, db)).
Proof.
  intros Hst Hid. split.
  - intros resp db' Hc.
    pose proof (returned_accepts _ _ _ _ _ _ _ Hc) as Hacc.
    destruct (update_effect e rt p u id o db Hst Hid Hacc)
      as (o' & Hk & [Hc'|(db'' & Hc' & Hs)] & _); [congruence|].
    rewrite Hc' in Hc. simplify_eq. exists o'. split; [done|].
    intros k. rewrite Hk. unfold updated_field.
    repeat case_decide; try done.
    destruct (p !! k) as [v|] eqn:Hv; [|done].
    intros [= Hnull]. by destruct (parsed_update_null_free e rt p Hacc k v).
  - intros k Hk Hd Hv.
    apply not_accepted. intros Hacc.
    apply (parsed_update_null_free e rt p Hacc k JNull Hk Hv).
    unfold supplied_value. by rewrite decide_False.
Qed.

Lemma min1_rejects v : v = None ∨ v = Some (JStr "") → z.min 1 z.string v = None.
Proof. by intros [->| ->]. Qed.

(** X13. [createAccount] and [createCategory] reject a payload whose
    [name] is missing or the empty string; [updateAccount] and
    [updateCategory] reject an empty [name].  The database is unchanged. *)
Theorem name_is_required_and_not_empty
    (rt : Runtime) (p : gmap string Json) (ctx : Context) (db : Db) :
  (p !! "name" = None ∨ p !! "name" = Some (JStr "") →
   call CreateAccount rt p ctx db = (Thrown ActionInputError, db)
   ∧ call CreateCategory rt p ctx db = (Thrown ActionInputError, db))
  ∧ (p !! "name" = Some (JStr "") →
     call UpdateAccount rt p ctx db = (Thrown ActionInputError, db)
     ∧ call UpdateCategory rt p ctx db = (Thrown ActionInputError, db)).
Proof.
  split.
  - intros Hn. split; apply not_accepted; intros [i Hi]; schema_fields Hi;
      match goal with H : z.min 1 z.string _ = Some _ |- _ =>
        by rewrite min1_rejects in H end.
  - intros Hn. split; apply not_accepted; intros [i Hi]; schema_fields Hi;
      match goal with H : z.optional (z.min 1 z.string) _ = Some _ |- _ =>
        by rewrite Hn in H end.
Qed.

Lemma page_number_rejects q d :
  (q ≤ 0)%Qc ∨ Qden (this q) ≠ 1%positive →
  z.default d (z.positive (z.int z.number)) (Some (JNum q)) = None.
Proof.
  intros H. unfold z.default, z.positive, z.int, z.number. simpl.
  case_decide; simpl; [|done]. case_decide; [|done].
  destruct H as [H|H]; [|done]. by apply Qcle_not_lt in H.
Qed.

(** X14. [listTransactions] rejects a [page] or [pageSize] that is zero,
    negative or not a whole number, and leaves the database unchanged. *)
Theorem page_numbers_must_be_positive_integers
    (rt : Runtime) (p : gmap string Json) (ctx : Context) (db : Db) (k : string) (q : Qc) :
  k = "page" ∨ k = "pageSize" → p !! k = Some (JNum q) →
  (q ≤ 0)%Qc ∨ Qden (this q) ≠ 1%positive →
  call ListTransactions rt p ctx db = (Thrown ActionInputError, db).
Proof.
  intros Hk Hp Hq. apply not_accepted. intros [i Hi]. schema_fields Hi.
  destruct Hk as [->| ->];
    repeat match goal with
    | H : z.default _ _ (p !! _) = Some _ |- _ =>
        rewrite ?Hp, ?page_number_rejects in H by done; try done; clear H
    end.
Qed.

(** What the two account and category lists return to [u]. *)
Lemma list_all_items e rt u db :
  e ≠ Transaction →
  response_items
    (call (list_of e) rt {[ "includeArchived" := JBool true ]} (signed_in u) db)
  = rows_owned e u db.
Proof. by destruct e. Qed.

Lemma list_default_items_Accounts rt u db :
  response_items (call ListAccounts rt ∅ (signed_in u) db)
  = Accounts.to_obj
      <$> List.filter (sql_and [sql_eq Accounts.userId u; sql_eq Accounts.isArchived false])
            (accounts db).
Proof. done. Qed.

Lemma list_default_items_Categories rt u db :
  response_items (call ListCategories rt ∅ (signed_in u) db)
  = Categories.to_obj
      <$> List.filter
            (sql_and [sql_eq Categories.userId u; sql_eq Categories.isArchived false])
            (categories db).
Proof. done. Qed.

Lemma obj_isArchived_Accounts r :
  Accounts.to_obj r !! "isArchived" = Some (VBool (Accounts.isArchived r)).
Proof. reflexivity. Qed.

Lemma obj_isArchived_Categories r :
  Categories.to_obj r !! "isArchived" = Some (VBool (Categories.isArchived r)).
Proof. reflexivity. Qed.

Lemma sql_and_second {R} (c d : R → bool) cs r :
  sql_and (c :: d :: cs) r = true → d r = true.
Proof. unfold sql_and. simpl. rewrite !andb_true_iff. tauto. Qed.

(** X15. Archive, then list.  After the caller archives one of their
    accounts or categories, in a database with unique ids, the default list
    of that entity returns no item with the archived id, and the list with
    [includeArchived: true] returns the archived row, with the flag set and
    the new [updatedAt]. *)
Theorem archived_row_leaves_the_default_list
    (a : ActionName) (e : Entity) (rt rt2 : Runtime) (p : gmap string Json)
    (u id : string) (o : Obj) (db : Db) :
  pk_unique db → is_archive a → targets a = Some e →
  stored e id u db = Some o → p !! "id" = Some (JStr id) →
  let db' := (call a rt p (signed_in u) db).2 in
  (∀ item, item ∈ response_items (call (list_of e) rt2 ∅ (signed_in u) db') →
     item !! "id" ≠ Some (VStr id))
  ∧ <["updatedAt" := VDate (clock rt 0)]> (<["isArchived" := VBool true]> o)
    ∈ response_items
        (call (list_of e) rt2 {[ "includeArchived" := JBool true ]} (signed_in u) db').
Proof.
  intros Hpk Ha Ht Hst Hid db'.
  assert (pk_unique db') as (Hpa & Hpc & _).
  { apply (pk_unique_step
             {| action := a; runtime := rt; payload := p; context := signed_in u |}).
    done. }
  destruct (archive_effect a e rt p u id o db Ha Ht Hst Hid) as (db'' & Hc & Hs & _).
  assert (db'' = db') as -> by (unfold db'; by rewrite Hc).
  assert (e ≠ Transaction) as He by (destruct Ha as [->| ->]; simplify_eq/=; done).
  split; [|rewrite list_all_items by done; by apply stored_sound in Hs as (_ & _ & ?)].
  intros item Hin Hitem.
  destruct Ha as [->| ->]; simplify_eq/=.
  - rewrite list_default_items_Accounts in Hin.
    apply list_elem_of_fmap in Hin as (x & -> & Hx).
    pose proof (filter_elem_true _ _ _ Hx) as Hfalse%sql_and_second.
    apply list_elem_of_In, filter_In, proj1, list_elem_of_In in Hx.
    unfold stored, found in Hs. rewrite getAccountForUser_eq in Hs. simpl in Hs.
    apply fmap_Some in Hs as (r & Hr & Hor).
    pose proof (head_filter_true _ _ _ Hr) as [Hrid _]%scoped_true.
    apply head_Some_elem_of, list_elem_of_In, filter_In, proj1, list_elem_of_In in Hr.
    rewrite obj_id_Accounts in Hitem. injection Hitem as Hxid.
    assert (x = r) as -> by (apply (NoDup_key_inj Accounts.id (accounts db')); congruence).
    assert (Accounts.to_obj r !! "isArchived" = Some (VBool true)) as Harch
      by (rewrite <- Hor; by simplify_map_eq).
    rewrite obj_isArchived_Accounts in Harch.
    unfold sql_eq in Hfalse. apply bool_decide_eq_true in Hfalse. congruence.
  - rewrite list_default_items_Categories in Hin.
    apply list_elem_of_fmap in Hin as (x & -> & Hx).
    pose proof (filter_elem_true _ _ _ Hx) as Hfalse%sql_and_second.
    apply list_elem_of_In, filter_In, proj1, list_elem_of_In in Hx.
    unfold stored, found in Hs. rewrite getCategoryForUser_eq in Hs. simpl in Hs.
    apply fmap_Some in Hs as (r & Hr & Hor).
    pose proof (head_filter_true _ _ _ Hr) as [Hrid _]%scoped_true.
    apply head_Some_elem_of, list_elem_of_In, filter_In, proj1, list_elem_of_In in Hr.
    rewrite obj_id_Categories in Hitem. injection Hitem as Hxid.
    assert (x = r) as ->
      by (apply (NoDup_key_inj Categories.id (categories db')); congruence).
    assert (Categories.to_obj r !! "isArchived" = Some (VBool true)) as Harch
      by (rewrite <- Hor; by simplify_map_eq).
    rewrite obj_isArchived_Categories in Harch.
    unfold sql_eq in Hfalse. apply bool_decide_eq_true in Hfalse. congruence.
Qed.

Lemma row_resolved_iff db r :
  row_resolved db r
  ↔ resolves (Transactions.accountId r) (Accounts.id <$> accounts db) = true
    ∧ resolves (Transactions.categoryId r) (Categories.id <$> categories db) = true.
Proof.
  unfold row_resolved. simpl. rewrite !Forall_cons, Forall_nil. tauto.
Qed.

Lemma resolves_mono cell (keys keys' : list string) :
  keys ⊆ keys' → resolves cell keys = true → resolves cell keys' = true.
Proof.
  intros Hk. destruct cell; simpl; [|done].
  rewrite !bool_decide_eq_true. apply Hk.
Qed.

(** Rows stay resolved when the keys of accounts and categories only grow. *)
Lemma row_resolved_mono db db' r :
  Accounts.id <$> accounts db ⊆ Accounts.id <$> accounts db' →
  Categories.id <$> categories db ⊆ Categories.id <$> categories db' →
  row_resolved db r → row_resolved db' r.
Proof.
  rewrite !row_resolved_iff. intros Ha Hc [??].
  split; eapply resolves_mono; eauto.
Qed.

(** A statement that the storage accepted left no dangling row. *)
Lemma dangling_false (l : list Transactions.row) db :
  foreign_keys db = true → dangling TransactionsTable l db = false →
  Forall (row_resolved db) l.
Proof.
  unfold dangling. intros ->. rewrite andb_true_r. simpl.
  rewrite orb_false_r. intros [H1 H2]%orb_false_elim.
  apply Forall_forall. intros r Hr. apply row_resolved_iff.
  split.
  - destruct (resolves (Transactions.accountId r) _) eqn:E; [done|].
    assert (existsb (λ r0, negb (resolves (Transactions.accountId r0)
              (Accounts.id <$> accounts db))) l = true) as Hex; [|congruence].
    apply existsb_exists. exists r. split; [by apply list_elem_of_In|by rewrite E].
  - destruct (resolves (Transactions.categoryId r) _) eqn:E; [done|].
    assert (existsb (λ r0, negb (resolves (Transactions.categoryId r0)
              (Categories.id <$> categories db))) l = true) as Hex; [|congruence].
    apply existsb_exists. exists r. split; [by apply list_elem_of_In|by rewrite E].
Qed.

Lemma Forall_updated {R} (P : R → Prop) (w : R → bool) (s : R → R) (l : list R) :
  Forall P l → Forall P (s <$> List.filter w l) →
  Forall P (map (λ x, if w x then s x else x) l).
Proof.
  induction l as [|x l IH]; simpl; [done|].
  intros [Hx Hl]%Forall_cons. destruct (w x) eqn:E; simpl.
  - intros [Hsx Hsl]%Forall_cons. constructor; auto.
  - intros Hsl. constructor; auto.
Qed.

Ltac storage_unfold :=
  unfold serve, call, server.createAccount, server.updateAccount, server.archiveAccount,
    server.listAccounts, server.createCategory, server.updateCategory,
    server.archiveCategory, server.listCategories, server.createTransaction,
    server.updateTransaction, server.deleteTransaction, server.listTransactions,
    defineAction, requireUser, getAccountForUser, getCategoryForUser,
    getTransactionForUser, db_select, db_select_page, db_insert, db_update, db_delete,
    throw, mbind, mret, Act_bind, Act_ret, bind, ret in *.

Lemma foreign_keys_step q db : foreign_keys (serve q db).2 = foreign_keys db.
Proof.
  destruct q as [a rt p ctx].
  destruct ctx as [[[[[uid]|]]|]]; destruct a; storage_unfold; simpl;
    repeat (case_match; simplify_eq/=); done.
Qed.

Lemma references_resolved_step q db :
  foreign_keys db = true → references_resolved db → references_resolved (serve q db).2.
Proof.
  intros Hfk Hres. destruct q as [a rt p ctx]. unfold references_resolved in *.
  destruct ctx as [[[[[uid]|]]|]]; destruct a; storage_unfold; simpl;
    repeat (case_match; simplify_eq/=); try done.
  all: repeat match goal with
       | H : dangling TransactionsTable _ _ = false |- _ =>
           apply dangling_false in H; [|done]
       end.
  all: try (eapply Forall_impl; [exact Hres|]; intros ? Hrow;
            eapply row_resolved_mono; [| |exact Hrow]; simpl;
            rewrite ?map_update_keys, ?fmap_app by done;
            set_solver).
  all: (eapply (Forall_impl (row_resolved db));
          [|intros ? Hrow; eapply row_resolved_mono; [| |exact Hrow]; simpl; set_solver]).
  - by apply Forall_app.
  - by apply Forall_updated.
  - by apply Forall_bool_filter.
Qed.

(** X16. Where the storage enforces the references of [db/tables.ts], they
    stay resolved.  If every stored transaction that names an account or a
    category names a stored one, the same holds after any sequence of
    requests: the account and category actions never remove a row or change
    an id, and the storage refuses a transaction that names a missing one. *)
Theorem enforced_references_stay_resolved (qs : list Request) (db : Db) :
  foreign_keys db = true → references_resolved db →
  let db' := serve_all qs db in
  foreign_keys db' = true
  ∧ ∀ r, r ∈ transactions db' →
      (∀ a, Transactions.accountId r = Some a → a ∈ Accounts.id <$> accounts db')
      ∧ (∀ c, Transactions.categoryId r = Some c → c ∈ Categories.id <$> categories db').
Proof.
  intros Hfk Hres db'.
  assert (foreign_keys db' = true ∧ references_resolved db') as [Hfk' Hres'].
  { unfold db'. clear db'. revert db Hfk Hres.
    induction qs as [|q qs IH]; intros db Hfk Hres; simpl; [done|].
    apply IH; [by rewrite foreign_keys_step|by apply references_resolved_step]. }
  split; [done|]. intros r Hr.
  pose proof (proj1 (Forall_forall _ _) Hres' r Hr) as [Ha Hc]%row_resolved_iff.
  split; intros k Hk; [rewrite Hk in Ha|rewrite Hk in Hc]; simpl in *;
    by apply bool_decide_eq_true in Ha || by apply bool_decide_eq_true in Hc.
Qed.

(** ** Further worked requests *)

Lemma rows_valid_ledger : rows_valid ledger.
Proof.
  split; [|split]; simpl; repeat constructor; try discriminate; set_solver.
Qed.

Lemma references_resolved_ledger : references_resolved ledger.
Proof. repeat constructor. Qed.

Lemma validation_then_authentication_witness :
  call CreateAccount (node "a2" 40) ∅ (signed_in "alice") archived_cash
  = (Thrown ActionInputError, archived_cash)
  ∧ call CreateAccount (node "a2" 40) {[ "name" := JStr "Bank" ]} {| locals := None |}
      archived_cash
    = (Thrown unauthorized, archived_cash).
Proof.
  split.
  - apply (proj1 (validation_then_authentication CreateAccount (node "a2" 40) ∅
                    (signed_in "alice") archived_cash)).
    intros [i Hi]. discriminate Hi.
  - apply (proj2 (validation_then_authentication CreateAccount (node "a2" 40)
                    {[ "name" := JStr "Bank" ]} {| locals := None |} archived_cash)).
    + eexists. reflexivity.
    + reflexivity.
Defined.

Lemma request_leaves_other_owners_rows_witness :
  rows_owned Transaction "bob" (serve delete_t1 ledger).2
  = [Transactions.to_obj (expense "t0" "bob" 7)].
Proof.
  etrans; [apply (request_leaves_other_owners_rows delete_t1 Transaction "bob" ledger)|].
  - discriminate.
  - reflexivity.
Defined.

Lemma action_changes_only_its_table_witness :
  transactions (serve unarchive_cash ledger).2 = transactions ledger.
Proof.
  destruct (action_changes_only_its_table unarchive_cash Transaction ledger) as [H _].
  - discriminate.
  - exact H.
Defined.

Lemma list_is_read_only_and_scoped_witness :
  (call ListTransactions (node "" 40) ∅ (signed_in "alice") ledger).2 = ledger.
Proof.
  destruct (list_is_read_only_and_scoped ListTransactions (node "" 40) ∅
              (signed_in "alice") ledger) as [H _].
  - right. right. reflexivity.
  - exact H.
Defined.

Lemma lookup_finds_exactly_owned_rows_witness :
  is_Some (stored Account "a1" "alice" archived_cash).
Proof.
  apply (proj2 (lookup_finds_exactly_owned_rows Account "a1" "alice" archived_cash)).
  exact owned_archived_cash.
Defined.

Lemma delete_removes_exactly_that_row_witness :
  ∃ db',
    call DeleteTransaction (node "" 40) {[ "id" := JStr "t1" ]} (signed_in "alice") ledger
    = (Returned {| success := true; data := None |}, db')
    ∧ stored Transaction "t1" "alice" db' = None
    ∧ accounts db' = accounts ledger.
Proof.
  destruct (delete_removes_exactly_that_row (node "" 40) (node "" 50)
              {[ "id" := JStr "t1" ]} "alice" "t1"
              (Transactions.to_obj (expense "t1" "alice" 5)) ledger)
    as (db' & Hc & Hs & _ & Ha & _).
  - reflexivity.
  - reflexivity.
  - exists db'. split; [exact Hc|]. split; [exact Hs|exact Ha].
Defined.

Lemma create_then_lookup_witness :
  ∃ o db',
    call CreateAccount (node "a2" 40) {[ "name" := JStr "Bank" ]} (signed_in "alice")
      archived_cash
    = (Returned {| success := true;
                   data := Some (entity "account" (undefined_for_null o)) |}, db')
    ∧ stored Account "a2" "alice" db' = Some o
    ∧ o !! "name" = Some (VStr "Bank")
    ∧ o !! "currency" = Some VNull.
Proof.
  destruct (create_then_lookup Account (node "a2" 40) {[ "name" := JStr "Bank" ]}
              "alice" archived_cash) as (o & db' & Hc & Hs & Hk & _).
  - eexists. reflexivity.
  - intros H. apply list_elem_of_singleton in H. discriminate H.
  - exact I.
  - exists o, db'. split; [exact Hc|]. split; [exact Hs|].
    rewrite !Hk. split; reflexivity.
Defined.

Lemma rows_keep_id_owner_and_creation_time_witness :
  has_row Transaction "t2" "alice" 100 (serve_all [delete_t1; unarchive_cash] ledger).
Proof.
  apply rows_keep_id_owner_and_creation_time.
  - exists (expense "t2" "alice" 6). split; [|done].
    do 2 apply list_elem_of_further. apply list_elem_of_here.
  - intros _. repeat constructor; intros [H1 H2]; discriminate.
Defined.

Lemma stored_rows_stay_valid_witness :
  rows_valid (serve_all [delete_t1; unarchive_cash] ledger).
Proof. apply stored_rows_stay_valid. exact rows_valid_ledger. Defined.

Lemma pages_tile_the_matching_rows_witness :
  concat (page_items (node "" 40) {[ "pageSize" := JNum (Qc_of_Z 1) ]} "alice" ledger
            <$> seq 1 2)
  = [Transactions.to_obj (expense "t1" "alice" 5);
     Transactions.to_obj (expense "t2" "alice" 6)].
Proof.
  destruct (pages_tile_the_matching_rows (node "" 40) {[ "pageSize" := JNum (Qc_of_Z 1) ]}
              "alice" ledger None None None 1 2) as (_ & H & _).
  - repeat split; try reflexivity; intros n H; inversion H; lia.
  - etrans; [exact H|]. reflexivity.
Defined.

Lemma update_cannot_clear_a_column_witness :
  call UpdateAccount (node "" 40) (<["currency" := JNull]> {[ "id" := JStr "a1" ]})
    (signed_in "alice") archived_cash
  = (Thrown ActionInputError, archived_cash).
Proof.
  destruct (update_cannot_clear_a_column Account (node "" 40)
              (<["currency" := JNull]> {[ "id" := JStr "a1" ]}) "alice" "a1"
              (Accounts.to_obj
                 {| Accounts.id := "a1"; Accounts.userId := "alice";
                    Accounts.name := "Cash"; Accounts.type := None;
                    Accounts.currency := None; Accounts.startingBalance := None;
                    Accounts.isArchived := true; Accounts.createdAt := 10;
                    Accounts.updatedAt := 20 |})
              archived_cash) as [_ H].
  - reflexivity.
  - reflexivity.
  - apply (H "currency").
    + do 2 apply list_elem_of_further. apply list_elem_of_here.
    + discriminate.
    + reflexivity.
Defined.

Lemma name_is_required_and_not_empty_witness :
  call CreateCategory (node "c1" 40) {[ "name" := JStr "" ]} (signed_in "alice")
    archived_cash
  = (Thrown ActionInputError, archived_cash).
Proof.
  destruct (name_is_required_and_not_empty (node "c1" 40) {[ "name" := JStr "" ]}
              (signed_in "alice") archived_cash) as [H _].
  destruct H as [_ H].
  - right. reflexivity.
  - exact H.
Defined.

Lemma page_numbers_must_be_positive_integers_witness :
  call ListTransactions (node "" 40) {[ "page" := JNum (Qc_of_Z 0) ]} (signed_in "alice")
    ledger
  = (Thrown ActionInputError, ledger).
Proof.
  apply (page_numbers_must_be_positive_integers (node "" 40)
           {[ "page" := JNum (Qc_of_Z 0) ]} (signed_in "alice") ledger "page"
           (Qc_of_Z 0)).
  - left. reflexivity.
  - reflexivity.
  - left. discriminate.
Defined.

Lemma archived_row_leaves_the_default_list_witness :
  Forall (λ item, item !! "id" ≠ Some (VStr "a1"))
    (response_items
       (call ListAccounts (node "" 50) ∅ (signed_in "alice")
          (call ArchiveAccount (node "" 40) {[ "id" := JStr "a1" ]}
             (signed_in "alice") archived_cash).2)).
Proof.
  destruct (archived_row_leaves_the_default_list ArchiveAccount Account
              (node "" 40) (node "" 50) {[ "id" := JStr "a1" ]} "alice" "a1"
              (Accounts.to_obj
                 {| Accounts.id := "a1"; Accounts.userId := "alice";
                    Accounts.name := "Cash"; Accounts.type := None;
                    Accounts.currency := None; Accounts.startingBalance := None;
                    Accounts.isArchived := true; Accounts.createdAt := 10;
                    Accounts.updatedAt := 20 |})
              archived_cash) as [H _].
  - exact pk_unique_archived_cash.
  - left. reflexivity.
  - reflexivity.
  - reflexivity.
  - reflexivity.
  - apply Forall_forall. exact H.
Defined.

Lemma enforced_references_stay_resolved_witness :
  foreign_keys (serve_all [delete_t1; unarchive_cash] ledger) = true
  ∧ Forall (λ r, Transactions.accountId r = Some "a1")
      (transactions (serve_all [delete_t1; unarchive_cash] ledger))
  ∧ "a1" ∈ Accounts.id <$> accounts (serve_all [delete_t1; unarchive_cash] ledger).
Proof.
  destruct (enforced_references_stay_resolved [delete_t1; unarchive_cash] ledger)
    as [Hfk H].
  - reflexivity.
  - exact references_resolved_ledger.
  - split; [exact Hfk|]. split; [repeat constructor|].
    apply (proj1 (H (expense "t2" "alice" 6)
                    (list_elem_of_further _ _ _ (list_elem_of_here _ _)))).
    reflexivity.
Defined.
